(** * VoiceChat: the mesh voice-session component of CoCode

    A shallow embedding of [client/src/components/chats/VoiceChat.tsx]:
    the React component that keeps one [RTCPeerConnection] per remote
    socket id, answers and issues WebRTC offers through the socket relay,
    and tracks the local and the per-peer mute flags.

    Modelling choices.
    - The component's refs and state ([peersRef], [localStreamRef],
      [joined], [localMuted], [remoteMutedMap], [audioContainerRef]) are the
      fields of one record, [VoiceChat].  State setters are applied at once:
      every handler reads the committed state.
    - Host objects are mutable and referenced from several places (a track
      is held by the local stream and by every connection it was added to;
      an audio element by its entry, by the container and by the [ontrack]
      closure).  They live in three stores, lists indexed by reference;
      allocation appends.
    - What the browser answers during one handler run (the microphone
      prompt, the SDP calls, a host call that raises) is an oracle, [Host],
      given with the event.
    - Code that may raise is written in a state-and-exception monad, [M];
      state changes made before a raise stay, as in JavaScript.
    - A handler runs to completion: interleavings at [await] are not
      modelled.
    - [peersRef.current] and [remoteMutedMap] are finite maps on socket
      ids; a socket id is the relay's session id, never the name of a
      member of [Object.prototype]. *)

From stdpp Require Import base option list strings gmap fin_maps.

(** ** Host objects *)

Inductive TrackKind := Audio | Video.
Inductive ReadyState := Live | Ended.

Record MediaStreamTrack := mkTrack {
  kind : TrackKind;
  enabled : bool;
  readyState : ReadyState
}.

Record RTCPeerConnection := mkPc {
  pc_closed : bool;
  pc_onicecandidate : string;      (* the remoteSocketId its handler closes over *)
  pc_ontrack : option nat;         (* the audio element its handler closes over *)
  pc_senders : list nat;           (* tracks given to addTrack *)
  pc_localDescription : option string;
  pc_remoteDescription : option string;
  pc_remoteCandidates : list string
}.

Record HTMLAudioElement := mkAudio {
  autoplay : bool;
  playsinline : bool;
  controls : bool;
  el_muted : bool;
  srcObject : option nat
}.

(** [type PeerEntry = { pc; audioEl; muted }], the two objects by reference. *)
Record PeerEntry := mkEntry {
  pc : nat;
  audioEl : nat;
  muted : bool
}.

Global Instance TrackKind_eq_dec : EqDecision TrackKind.
Proof. solve_decision. Defined.
Global Instance ReadyState_eq_dec : EqDecision ReadyState.
Proof. solve_decision. Defined.
Global Instance PeerEntry_eq_dec : EqDecision PeerEntry.
Proof. solve_decision. Defined.

(** [socket.emit(SocketEvent.X, { payload, targetSocketId })]. *)
Inductive Emit :=
| VOICE_OFFER (offer : string) (targetSocketId : string)
| VOICE_ANSWER (answer : string) (targetSocketId : string)
| VOICE_ICE_CANDIDATE (candidate : string) (targetSocketId : string).

Inductive LogLine :=
| ConsoleError (msg : string)
| ConsoleWarn (msg : string).

Inductive Exn :=
| NotAllowedError                  (* getUserMedia rejected *)
| OperationError (op : string).    (* any other host call that raised *)

(** An element of the [users] array of the application context. *)
Record User := mkUser {
  socketId : option string;        (* [u.socketId], possibly undefined *)
  username : string
}.

(** The host's answers during one handler run. *)
Record Host := mkHost {
  mic : option nat;
    (* getUserMedia({ audio: true }): [None] is a rejection, [Some n] a
       stream of [n] fresh audio tracks, live and enabled *)
  createOffer_result : nat -> option string;
  createAnswer_result : nat -> option string;
  setLocalDescription_ok : nat -> bool;
  setRemoteDescription_ok : nat -> bool;
  addIceCandidate_ok : nat -> bool;
  close_throws : nat -> bool;
  removeChild_throws : nat -> bool
}.

(** ** The component *)

Record VoiceChat := mkVoiceChat {
  joined : bool;
  localMuted : bool;
  remoteMutedMap : gmap string bool;
  localStreamRef : option (list nat);       (* the stream's tracks *)
  peersRef : gmap string PeerEntry;
  audioContainerRef : option (list nat);    (* the container's children *)
  trackHeap : list MediaStreamTrack;
  pcHeap : list RTCPeerConnection;
  audioHeap : list HTMLAudioElement;
  emitted : list Emit;
  console : list LogLine
}.

Definition setJoined (b : bool) (s : VoiceChat) : VoiceChat :=
  mkVoiceChat b (localMuted s) (remoteMutedMap s) (localStreamRef s)
    (peersRef s) (audioContainerRef s) (trackHeap s) (pcHeap s) (audioHeap s)
    (emitted s) (console s).

Definition setLocalMuted (f : bool -> bool) (s : VoiceChat) : VoiceChat :=
  mkVoiceChat (joined s) (f (localMuted s)) (remoteMutedMap s)
    (localStreamRef s) (peersRef s) (audioContainerRef s) (trackHeap s)
    (pcHeap s) (audioHeap s) (emitted s) (console s).

Definition setRemoteMutedMap (f : gmap string bool -> gmap string bool)
    (s : VoiceChat) : VoiceChat :=
  mkVoiceChat (joined s) (localMuted s) (f (remoteMutedMap s))
    (localStreamRef s) (peersRef s) (audioContainerRef s) (trackHeap s)
    (pcHeap s) (audioHeap s) (emitted s) (console s).

Definition set_localStreamRef (v : option (list nat)) (s : VoiceChat)
    : VoiceChat :=
  mkVoiceChat (joined s) (localMuted s) (remoteMutedMap s) v (peersRef s)
    (audioContainerRef s) (trackHeap s) (pcHeap s) (audioHeap s) (emitted s)
    (console s).

Definition set_peersRef (f : gmap string PeerEntry -> gmap string PeerEntry)
    (s : VoiceChat) : VoiceChat :=
  mkVoiceChat (joined s) (localMuted s) (remoteMutedMap s) (localStreamRef s)
    (f (peersRef s)) (audioContainerRef s) (trackHeap s) (pcHeap s)
    (audioHeap s) (emitted s) (console s).

Definition set_container (f : list nat -> list nat) (s : VoiceChat)
    : VoiceChat :=
  mkVoiceChat (joined s) (localMuted s) (remoteMutedMap s) (localStreamRef s)
    (peersRef s) (f <$> audioContainerRef s) (trackHeap s) (pcHeap s)
    (audioHeap s) (emitted s) (console s).

Definition set_trackHeap (f : list MediaStreamTrack -> list MediaStreamTrack)
    (s : VoiceChat) : VoiceChat :=
  mkVoiceChat (joined s) (localMuted s) (remoteMutedMap s) (localStreamRef s)
    (peersRef s) (audioContainerRef s) (f (trackHeap s)) (pcHeap s)
    (audioHeap s) (emitted s) (console s).

Definition set_pcHeap (f : list RTCPeerConnection -> list RTCPeerConnection)
    (s : VoiceChat) : VoiceChat :=
  mkVoiceChat (joined s) (localMuted s) (remoteMutedMap s) (localStreamRef s)
    (peersRef s) (audioContainerRef s) (trackHeap s) (f (pcHeap s))
    (audioHeap s) (emitted s) (console s).

Definition set_audioHeap (f : list HTMLAudioElement -> list HTMLAudioElement)
    (s : VoiceChat) : VoiceChat :=
  mkVoiceChat (joined s) (localMuted s) (remoteMutedMap s) (localStreamRef s)
    (peersRef s) (audioContainerRef s) (trackHeap s) (pcHeap s)
    (f (audioHeap s)) (emitted s) (console s).

Definition push_emit (e : Emit) (s : VoiceChat) : VoiceChat :=
  mkVoiceChat (joined s) (localMuted s) (remoteMutedMap s) (localStreamRef s)
    (peersRef s) (audioContainerRef s) (trackHeap s) (pcHeap s) (audioHeap s)
    (emitted s ++ [e]) (console s).

Definition push_log (l : LogLine) (s : VoiceChat) : VoiceChat :=
  mkVoiceChat (joined s) (localMuted s) (remoteMutedMap s) (localStreamRef s)
    (peersRef s) (audioContainerRef s) (trackHeap s) (pcHeap s) (audioHeap s)
    (emitted s) (console s ++ [l]).

(** The component as mounted: nothing held, the hidden container in place. *)
Definition mounted : VoiceChat :=
  mkVoiceChat false false ∅ None ∅ (Some []) [] [] [] [] [].

(** ** State and exceptions *)

Inductive Res (A : Type) :=
| Ok (a : A)
| Throw (e : Exn).
Arguments Ok {A} a.
Arguments Throw {A} e.

Definition M (A : Type) : Type := VoiceChat -> Res A * VoiceChat.

Definition ret {A} (a : A) : M A := fun s => (Ok a, s).

Definition bind {A B} (m : M A) (k : A -> M B) : M B :=
  fun s => match m s with
           | (Ok a, s') => k a s'
           | (Throw e, s') => (Throw e, s')
           end.

Definition throw {A} (e : Exn) : M A := fun s => (Throw e, s).

(** [try { m } catch (err) { handler err }] *)
Definition try_catch {A} (m : M A) (handler : Exn -> M A) : M A :=
  fun s => match m s with
           | (Ok a, s') => (Ok a, s')
           | (Throw e, s') => handler e s'
           end.

Definition gets {A} (f : VoiceChat -> A) : M A := fun s => (Ok (f s), s).
Definition modify (f : VoiceChat -> VoiceChat) : M unit :=
  fun s => (Ok tt, f s).

Declare Scope js_scope.
Delimit Scope js_scope with js.
Notation "x <- m ;; k" := (bind m (fun x => k))
  (at level 100, m at next level, right associativity) : js_scope.
Notation "m ;; k" := (bind m (fun _ => k))
  (at level 100, right associativity) : js_scope.
Open Scope js_scope.

(** [xs.forEach(f)]: a raise in [f] ends the loop and propagates. *)
Fixpoint forEach {A} (xs : list A) (f : A -> M unit) : M unit :=
  match xs with
  | [] => ret tt
  | x :: xs' => f x ;; forEach xs' f
  end.

(** The call of an [async] function whose promise nobody awaits: a
    rejection does not reach the caller. *)
Definition unawaited (m : M unit) : M unit :=
  try_catch m (fun _ => ret tt).

Definition console_error (msg : string) : M unit :=
  modify (push_log (ConsoleError msg)).
Definition console_warn (msg : string) : M unit :=
  modify (push_log (ConsoleWarn msg)).
Definition socket_emit (e : Emit) : M unit := modify (push_emit e).

(** ** Host calls *)

Definition update_pc (r : nat) (f : RTCPeerConnection -> RTCPeerConnection)
    : M unit :=
  modify (set_pcHeap (alter f r)).

Definition update_audio (r : nat) (f : HTMLAudioElement -> HTMLAudioElement)
    : M unit :=
  modify (set_audioHeap (alter f r)).

Definition update_track (r : nat) (f : MediaStreamTrack -> MediaStreamTrack)
    : M unit :=
  modify (set_trackHeap (alter f r)).

(** [new RTCPeerConnection(STUN_CONFIG)] with [onicecandidate] installed;
    the configuration, one public STUN server, is the same for all. *)
Definition new_RTCPeerConnection (remoteSocketId : string) : M nat :=
  fun s => (Ok (length (pcHeap s)),
            set_pcHeap (fun hp =>
              hp ++ [mkPc false remoteSocketId None [] None None []]) s).

(** [document.createElement("audio")] *)
Definition createElement_audio : M nat :=
  fun s => (Ok (length (audioHeap s)),
            set_audioHeap (fun hp =>
              hp ++ [mkAudio false false false false None]) s).

Definition set_autoplay (b : bool) (a : HTMLAudioElement) :=
  mkAudio b (playsinline a) (controls a) (el_muted a) (srcObject a).
Definition set_playsinline (b : bool) (a : HTMLAudioElement) :=
  mkAudio (autoplay a) b (controls a) (el_muted a) (srcObject a).
Definition set_controls (b : bool) (a : HTMLAudioElement) :=
  mkAudio (autoplay a) (playsinline a) b (el_muted a) (srcObject a).
Definition set_el_muted (b : bool) (a : HTMLAudioElement) :=
  mkAudio (autoplay a) (playsinline a) (controls a) b (srcObject a).
Definition set_srcObject (v : option nat) (a : HTMLAudioElement) :=
  mkAudio (autoplay a) (playsinline a) (controls a) (el_muted a) v.

Definition set_pc_closed (p : RTCPeerConnection) :=
  mkPc true (pc_onicecandidate p) (pc_ontrack p) (pc_senders p)
    (pc_localDescription p) (pc_remoteDescription p) (pc_remoteCandidates p).
Definition set_pc_ontrack (el : nat) (p : RTCPeerConnection) :=
  mkPc (pc_closed p) (pc_onicecandidate p) (Some el) (pc_senders p)
    (pc_localDescription p) (pc_remoteDescription p) (pc_remoteCandidates p).
Definition add_pc_sender (t : nat) (p : RTCPeerConnection) :=
  mkPc (pc_closed p) (pc_onicecandidate p) (pc_ontrack p) (pc_senders p ++ [t])
    (pc_localDescription p) (pc_remoteDescription p) (pc_remoteCandidates p).
Definition set_pc_local (d : string) (p : RTCPeerConnection) :=
  mkPc (pc_closed p) (pc_onicecandidate p) (pc_ontrack p) (pc_senders p)
    (Some d) (pc_remoteDescription p) (pc_remoteCandidates p).
Definition set_pc_remote (d : string) (p : RTCPeerConnection) :=
  mkPc (pc_closed p) (pc_onicecandidate p) (pc_ontrack p) (pc_senders p)
    (pc_localDescription p) (Some d) (pc_remoteCandidates p).
Definition add_pc_candidate (c : string) (p : RTCPeerConnection) :=
  mkPc (pc_closed p) (pc_onicecandidate p) (pc_ontrack p) (pc_senders p)
    (pc_localDescription p) (pc_remoteDescription p)
    (pc_remoteCandidates p ++ [c]).

Definition set_enabled (b : bool) (t : MediaStreamTrack) :=
  mkTrack (kind t) b (readyState t).
Definition set_readyState (r : ReadyState) (t : MediaStreamTrack) :=
  mkTrack (kind t) (enabled t) r.

(** [navigator.mediaDevices.getUserMedia({ audio: true })] *)
Definition getUserMedia (h : Host) : M (list nat) :=
  fun s => match mic h with
           | None => (Throw NotAllowedError, s)
           | Some n =>
               (Ok (seq (length (trackHeap s)) n),
                set_trackHeap (fun hp =>
                  hp ++ replicate n (mkTrack Audio true Live)) s)
           end.

(** [stream.getAudioTracks()] *)
Definition getAudioTracks (stream : list nat) : M (list nat) :=
  gets (fun s =>
    filter (fun t => kind <$> trackHeap s !! t = Some Audio) stream).

Definition pc_close (h : Host) (r : nat) : M unit :=
  if close_throws h r then throw (OperationError "close")
  else update_pc r set_pc_closed.

Definition removeChild (h : Host) (el : nat) : M unit :=
  if removeChild_throws h el then throw (OperationError "removeChild")
  else modify (set_container (filter (fun c => c ≠ el))).

(** [el.parentNode], as a truth value. *)
Definition parentNode (el : nat) : M bool :=
  gets (fun s => match audioContainerRef s with
                 | Some children => bool_decide (el ∈ children)
                 | None => false
                 end).

Definition createOffer (h : Host) (r : nat) : M string :=
  match createOffer_result h r with
  | Some d => ret d
  | None => throw (OperationError "createOffer")
  end.

Definition createAnswer (h : Host) (r : nat) : M string :=
  match createAnswer_result h r with
  | Some d => ret d
  | None => throw (OperationError "createAnswer")
  end.

Definition setLocalDescription (h : Host) (r : nat) (d : string) : M unit :=
  if setLocalDescription_ok h r then update_pc r (set_pc_local d)
  else throw (OperationError "setLocalDescription").

Definition setRemoteDescription (h : Host) (r : nat) (d : string) : M unit :=
  if setRemoteDescription_ok h r then update_pc r (set_pc_remote d)
  else throw (OperationError "setRemoteDescription").

Definition addIceCandidate (h : Host) (r : nat) (c : string) : M unit :=
  if addIceCandidate_ok h r then update_pc r (add_pc_candidate c)
  else throw (OperationError "addIceCandidate").

(** ** The component's functions *)

(** [createPeerConnection(remoteSocketId)], lines 30-65. *)
Definition createPeerConnection (h : Host) (remoteSocketId : string)
    : M PeerEntry :=
  pc <- new_RTCPeerConnection remoteSocketId ;;
  audioEl <- createElement_audio ;;
  update_audio audioEl (set_autoplay true) ;;
  update_audio audioEl (set_playsinline true) ;;
  update_audio audioEl (set_controls false) ;;
  modify (set_container (fun children => children ++ [audioEl])) ;;
  update_pc pc (set_pc_ontrack audioEl) ;;
  held <- gets localStreamRef ;;
  (match held with
   | Some _ => ret tt
   | None =>
       try_catch
         (stream <- getUserMedia h ;;
          modify (set_localStreamRef (Some stream)))
         (fun err =>
            console_error "Microphone access denied" ;;
            throw err)
   end) ;;
  stream <- gets localStreamRef ;;
  forEach (default [] stream) (fun t => update_pc pc (add_pc_sender t)) ;;
  modify (set_peersRef (insert remoteSocketId (mkEntry pc audioEl false))) ;;
  modify (setRemoteMutedMap (insert remoteSocketId false)) ;;
  ret (mkEntry pc audioEl false).

(** [cleanupPeer(socketId)], lines 68-84. *)
Definition cleanupPeer (h : Host) (socketId : string) : M unit :=
  found <- gets (fun s => peersRef s !! socketId) ;;
  match found with
  | None => ret tt
  | Some entry =>
      try_catch (pc_close h (pc entry)) (fun _ => ret tt) ;;
      try_catch
        (update_audio (audioEl entry) (set_srcObject None) ;;
         attached <- parentNode (audioEl entry) ;;
         if attached then removeChild h (audioEl entry) else ret tt)
        (fun _ => ret tt) ;;
      modify (set_peersRef (delete socketId)) ;;
      modify (setRemoteMutedMap (delete socketId))
  end.

(** [handleOffer], lines 88-98. *)
Definition handleOffer (h : Host) (offer senderSocketId : string) : M unit :=
  try_catch
    (entry <- createPeerConnection h senderSocketId ;;
     setRemoteDescription h (pc entry) offer ;;
     answer <- createAnswer h (pc entry) ;;
     setLocalDescription h (pc entry) answer ;;
     socket_emit (VOICE_ANSWER answer senderSocketId))
    (fun _ => console_error "Failed handling offer").

(** [handleAnswer], lines 100-108. *)
Definition handleAnswer (h : Host) (answer senderSocketId : string)
    : M unit :=
  found <- gets (fun s => peersRef s !! senderSocketId) ;;
  match found with
  | None => ret tt
  | Some entry =>
      try_catch (setRemoteDescription h (pc entry) answer)
        (fun _ => console_warn "Failed to set remote answer")
  end.

(** [handleIce], lines 110-118. *)
Definition handleIce (h : Host) (candidate senderSocketId : string)
    : M unit :=
  found <- gets (fun s => peersRef s !! senderSocketId) ;;
  match found with
  | None => ret tt
  | Some entry =>
      try_catch (addIceCandidate h (pc entry) candidate)
        (fun _ => console_warn "Failed to add ICE candidate")
  end.

(** JavaScript truthiness of a possibly undefined string. *)
Definition truthy (v : option string) : bool :=
  match v with
  | Some id => negb (String.eqb id "")
  | None => false
  end.

(** The effect on [joined] and [users], lines 132-149.  [self] is
    [socket.id]. *)
Definition membershipEffect (h : Host) (self : option string)
    (users : list User) : M unit :=
  isJoined <- gets joined ;;
  if negb isJoined then ret tt
  else
    forEach users (fun u =>
      unawaited
        (match socketId u with
         | None => ret tt
         | Some id =>
             if negb (truthy (socketId u)) then ret tt
             else if bool_decide (socketId u = self) then ret tt
             else
               known <- gets (fun s => peersRef s !! id) ;;
               match known with
               | Some _ => ret tt
               | None =>
                   try_catch
                     (entry <- createPeerConnection h id ;;
                      offer <- createOffer h (pc entry) ;;
                      setLocalDescription h (pc entry) offer ;;
                      socket_emit (VOICE_OFFER offer id))
                     (fun _ =>
                        console_error ("Failed to create offer for " +:+ id) ;;
                        cleanupPeer h id)
               end
         end)).

(** [handleUserLeft], lines 153-156. *)
Definition handleUserLeft (h : Host) (user : option User) : M unit :=
  match user with
  | None => ret tt
  | Some u =>
      match socketId u with
      | None => ret tt
      | Some id =>
          if negb (truthy (socketId u)) then ret tt else cleanupPeer h id
      end
  end.

(** [joinVoice], lines 163-173. *)
Definition joinVoice (h : Host) : M unit :=
  isJoined <- gets joined ;;
  if isJoined then ret tt
  else
    try_catch
      (stream <- getUserMedia h ;;
       modify (set_localStreamRef (Some stream)) ;;
       modify (setJoined true) ;;
       modify (setLocalMuted (fun _ => false)))
      (fun _ => console_error "Microphone access denied").

(** [Object.keys(peersRef.current)].  JavaScript lists the keys in insertion
    order, [map_to_list] in the order of the map; what is proved of the
    loop over them ([forEach_cleanupPeer]) holds for any list of ids. *)
Definition keys (m : gmap string PeerEntry) : list string :=
  (map_to_list m).*1.

(** [leaveVoice], lines 175-184. *)
Definition leaveVoice (h : Host) : M unit :=
  modify (setJoined false) ;;
  held <- gets localStreamRef ;;
  (match held with
   | Some stream =>
       forEach stream (fun t => update_track t (set_readyState Ended)) ;;
       modify (set_localStreamRef None)
   | None => ret tt
   end) ;;
  ids <- gets (fun s => keys (peersRef s)) ;;
  forEach ids (fun id => cleanupPeer h id).

(** [toggleLocalMute], lines 186-190. *)
Definition toggleLocalMute : M unit :=
  held <- gets localStreamRef ;;
  match held with
  | None => ret tt
  | Some stream =>
      audio <- getAudioTracks stream ;;
      forEach audio (fun t =>
        update_track t (fun tr => set_enabled (negb (enabled tr)) tr)) ;;
      modify (setLocalMuted negb)
  end.

(** The Mute button, line 207: [onClick={toggleLocalMute}] with
    [disabled={!joined}].  A disabled button fires no click, so the
    function runs only while [joined] is true. *)
Definition clickMute : M unit :=
  isJoined <- gets joined ;;
  if negb isJoined then ret tt else toggleLocalMute.

Definition set_muted (b : bool) (e : PeerEntry) : PeerEntry :=
  mkEntry (pc e) (audioEl e) b.

(** [toggleRemoteMute(socketId)], lines 192-199.  [!remoteMutedMap[id]] is
    [true] when the map has no such key. *)
Definition toggleRemoteMute (socketId : string) : M unit :=
  found <- gets (fun s => peersRef s !! socketId) ;;
  match found with
  | None => ret tt
  | Some entry =>
      mirrored <- gets (fun s => remoteMutedMap s !! socketId) ;;
      let newVal := negb (default false mirrored) in
      modify (set_peersRef (insert socketId (set_muted newVal entry))) ;;
      update_audio (audioEl entry) (set_el_muted newVal) ;;
      modify (setRemoteMutedMap (insert socketId newVal))
  end.

(** The two handlers installed on a connection, lines 33-37 and 46-48. *)
Definition onicecandidate (r : nat) (candidate : option string) : M unit :=
  found <- gets (fun s => pcHeap s !! r) ;;
  match found, candidate with
  | Some p, Some c => socket_emit (VOICE_ICE_CANDIDATE c (pc_onicecandidate p))
  | _, _ => ret tt
  end.

Definition ontrack (r : nat) (stream0 : option nat) : M unit :=
  found <- gets (fun s => pcHeap s !! r) ;;
  match found with
  | Some p =>
      match pc_ontrack p with
      | Some el => update_audio el (set_srcObject stream0)
      | None => ret tt
      end
  | None => ret tt
  end.

(** ** Events *)

Inductive Event :=
| JoinVoice
| LeaveVoice
| ToggleLocalMute
| ToggleRemoteMute (socketId : string)
| OfferReceived (offer senderSocketId : string)
| AnswerReceived (answer senderSocketId : string)
| IceReceived (candidate senderSocketId : string)
| UsersChanged (self : option string) (users : list User)
| UserDisconnected (user : option User)
| IceCandidateFound (r : nat) (candidate : option string)
| TrackReceived (r : nat) (stream0 : option nat).

(** An event runs the function itself; what the buttons allow is narrower
    ([clickMute]). *)
Definition handle (h : Host) (e : Event) : M unit :=
  match e with
  | JoinVoice => joinVoice h
  | LeaveVoice => leaveVoice h
  | ToggleLocalMute => toggleLocalMute
  | ToggleRemoteMute id => toggleRemoteMute id
  | OfferReceived offer sender => handleOffer h offer sender
  | AnswerReceived answer sender => handleAnswer h answer sender
  | IceReceived candidate sender => handleIce h candidate sender
  | UsersChanged self users => membershipEffect h self users
  | UserDisconnected user => handleUserLeft h user
  | IceCandidateFound r candidate => onicecandidate r candidate
  | TrackReceived r stream0 => ontrack r stream0
  end.

(** The state after a run of events, each with the host's answers. *)
Fixpoint run (evs : list (Host * Event)) (s : VoiceChat) : VoiceChat :=
  match evs with
  | [] => s
  | (h, e) :: evs' => run evs' (handle h e s).2
  end.

(** A host that grants the microphone and lets every call succeed. *)
Definition willing : Host :=
  mkHost (Some 1) (fun _ => Some "offer") (fun _ => Some "answer")
    (fun _ => true) (fun _ => true) (fun _ => true)
    (fun _ => false) (fun _ => false).

(** A host that refuses the microphone. *)
Definition refusing : Host :=
  mkHost None (fun _ => Some "offer") (fun _ => Some "answer")
    (fun _ => true) (fun _ => true) (fun _ => true)
    (fun _ => false) (fun _ => false).

(** ** Invariants *)

(** The mute map of the UI has exactly the keys of the connection table. *)
Definition in_sync (s : VoiceChat) : Prop :=
  dom (remoteMutedMap s) = dom (peersRef s).

(** What holds between two handler runs. *)
Record consistent (s : VoiceChat) : Prop := mkConsistent {
  mute_mirror : ∀ id, remoteMutedMap s !! id = muted <$> peersRef s !! id;
  sink_muted : ∀ id e, peersRef s !! id = Some e →
    (el_muted <$> audioHeap s) !! audioEl e = Some (muted e);
  sink_owned : ∀ id1 id2 e1 e2,
    peersRef s !! id1 = Some e1 → peersRef s !! id2 = Some e2 →
    audioEl e1 = audioEl e2 → id1 = id2;
  joined_holds : joined s = true → is_Some (localStreamRef s);
  stream_tracks : ∀ stream, localStreamRef s = Some stream →
    NoDup stream ∧
    Forall (λ t, (kind <$> trackHeap s) !! t = Some Audio) stream
}.

(** [joined] is neither read nor written by [m]. *)
Definition ignores_joined {A} (m : M A) : Prop :=
  ∀ b s, m (setJoined b s) = ((m s).1, setJoined b (m s).2).

(** ** States and values the statements name *)

(** The entry a build started in [s] registers. *)
Definition fresh_entry (s : VoiceChat) : PeerEntry :=
  mkEntry (length (pcHeap s)) (length (audioHeap s)) false.

(** The stream held after a successful build started in [s]. *)
Definition stream_after (h : Host) (s : VoiceChat) : list nat :=
  match localStreamRef s with
  | Some stream => stream
  | None => seq (length (trackHeap s)) (default 0 (mic h))
  end.

Definition tracks_after (h : Host) (s : VoiceChat) : list MediaStreamTrack :=
  match localStreamRef s with
  | Some _ => trackHeap s
  | None => trackHeap s ++ replicate (default 0 (mic h)) (mkTrack Audio true Live)
  end.

(** [m] keeps [I], whether it returns or raises. *)
Definition preserves (I : VoiceChat → Prop) {A} (m : M A) : Prop :=
  ∀ s, I s → I (m s).2.

(** The state after the microphone was granted to [joinVoice]. *)
Definition granted (n : nat) (s : VoiceChat) : VoiceChat :=
  setLocalMuted (λ _, false)
    (setJoined true
       (set_localStreamRef (Some (seq (length (trackHeap s)) n))
          (set_trackHeap
             (λ hp, hp ++ replicate n (mkTrack Audio true Live)) s))).

(** The state after [leaveVoice] released the microphone, before it
    tears the peers down. *)
Definition released (s : VoiceChat) : VoiceChat :=
  match localStreamRef s with
  | Some stream =>
      set_localStreamRef None
        (set_trackHeap
           (λ hp, foldl (λ hp t, alter (set_readyState Ended) t hp) hp stream)
           (setJoined false s))
  | None => setJoined false s
  end.

(** [t.enabled = !t.enabled] *)
Definition flip_enabled (tr : MediaStreamTrack) : MediaStreamTrack :=
  set_enabled (negb (enabled tr)) tr.

(** The audio tracks among the references of a stream. *)
Definition audio_of (s : VoiceChat) (stream : list nat) : list nat :=
  filter (λ t, kind <$> trackHeap s !! t = Some Audio) stream.

(** [!remoteMutedMap[socketId]] *)
Definition next_muted (s : VoiceChat) (id : string) : bool :=
  negb (default false (remoteMutedMap s !! id)).

(** A host that grants the microphone and rejects every description. *)
Definition rejecting : Host :=
  mkHost (Some 1) (fun _ => Some "offer") (fun _ => Some "answer")
    (fun _ => false) (fun _ => false) (fun _ => true)
    (fun _ => false) (fun _ => false).

(** The local user never joined; an offer from "B" was answered. *)
Definition answered_only : VoiceChat :=
  run [(willing, OfferReceived "sdp" "B")] mounted.

(** "A" joined while "B" was in the room and sent "B" an offer. *)
Definition offered : VoiceChat :=
  run [(willing, JoinVoice);
       (willing, UsersChanged (Some "A")
                   [mkUser (Some "A") "a"; mkUser (Some "B") "b"])]
      mounted.

(** What teardown and the two connection handlers depend on: whether the
    connection is closed, whom [onicecandidate] addresses, and which audio
    element [ontrack] feeds. *)
Definition wiring (p : RTCPeerConnection) : bool * string * option nat :=
  (pc_closed p, pc_onicecandidate p, pc_ontrack p).

(** Every entry of the table is on an open connection whose handlers
    address the entry's key and feed the entry's audio element. *)
Definition wired (s : VoiceChat) : Prop :=
  ∀ id e, peersRef s !! id = Some e →
    (wiring <$> pcHeap s) !! pc e = Some (false, id, Some (audioEl e)).

(** The body of the [async] callback of [users.forEach], lines 135-148. *)
Definition offerTo (h : Host) (self : option string) (u : User) : M unit :=
  match socketId u with
  | None => ret tt
  | Some id =>
      if negb (truthy (socketId u)) then ret tt
      else if bool_decide (socketId u = self) then ret tt
      else
        known <- gets (fun s => peersRef s !! id) ;;
        match known with
        | Some _ => ret tt
        | None =>
            try_catch
              (entry <- createPeerConnection h id ;;
               offer <- createOffer h (pc entry) ;;
               setLocalDescription h (pc entry) offer ;;
               socket_emit (VOICE_OFFER offer id))
              (fun _ =>
                 console_error ("Failed to create offer for " +:+ id) ;;
                 cleanupPeer h id)
        end
  end.

(** The peer the callback builds a session for, if any: a user with a
    non-empty socket id, other than [self], not yet in the table. *)
Definition newcomer (self : option string) (s : VoiceChat) (u : User)
    : option string :=
  match socketId u with
  | Some id =>
      if truthy (socketId u) && negb (bool_decide (socketId u = self))
         && bool_decide (peersRef s !! id = None)
      then Some id else None
  | None => None
  end.

(** A later store of connections differs from an earlier one only by
    connections that were closed. *)
Definition closes (before after : list RTCPeerConnection) : Prop :=
  ∀ r, after !! r = before !! r ∨ after !! r = set_pc_closed <$> before !! r.

(** The socket id a [USER_DISCONNECTED] payload names, if it names one. *)
Definition departed (user : option User) : option string :=
  match user with
  | Some u => if truthy (socketId u) then socketId u else None
  | None => None
  end.

(** What the callback does for a newcomer [id]: the [try] block of lines
    139-147 with its [catch]. *)
Definition offerNew (h : Host) (id : string) : M unit :=
  try_catch
    (entry <- createPeerConnection h id ;;
     offer <- createOffer h (pc entry) ;;
     setLocalDescription h (pc entry) offer ;;
     socket_emit (VOICE_OFFER offer id))
    (fun _ =>
       console_error ("Failed to create offer for " +:+ id) ;;
       cleanupPeer h id).

(** The offer a build started in [s] ends up sending, if every step of it
    succeeds: a stream is held or granted, and the host creates the offer
    and accepts it as the local description of the new connection. *)
Definition offer_outcome (h : Host) (s : VoiceChat) : option string :=
  match localStreamRef s, mic h with
  | None, None => None
  | _, _ =>
      match createOffer_result h (length (pcHeap s)) with
      | Some offer =>
          if setLocalDescription_ok h (length (pcHeap s)) then Some offer
          else None
      | None => None
      end
  end.

(** * Proofs *)

(** ** Running monadic code *)

Ltac run_js :=
  unfold bind, ret, gets, modify, throw, try_catch, unawaited,
    console_error, console_warn, socket_emit; simpl.

Ltac run_host := unfold update_pc, update_audio, update_track, modify; simpl.

Lemma forEach_modify {A} (xs : list A) (f : A → VoiceChat → VoiceChat) s :
  forEach xs (λ x, modify (f x)) s = (Ok tt, foldl (λ s x, f x s) s xs).
Proof.
  revert s. induction xs as [|x xs IH]; intros s; [done|].
  simpl. unfold bind at 1. unfold modify at 1. apply IH.
Qed.

Lemma foldl_set_pcHeap {A} (xs : list A)
    (f : A → list RTCPeerConnection → list RTCPeerConnection) s :
  foldl (λ s x, set_pcHeap (f x) s) s xs
  = set_pcHeap (λ hp, foldl (λ hp x, f x hp) hp xs) s.
Proof.
  revert s. induction xs as [|x xs IH]; intros s; simpl.
  - by destruct s.
  - by rewrite IH.
Qed.

Lemma foldl_set_trackHeap {A} (xs : list A)
    (f : A → list MediaStreamTrack → list MediaStreamTrack) s :
  foldl (λ s x, set_trackHeap (f x) s) s xs
  = set_trackHeap (λ hp, foldl (λ hp x, f x hp) hp xs) s.
Proof.
  revert s. induction xs as [|x xs IH]; intros s; simpl.
  - by destruct s.
  - by rewrite IH.
Qed.

Lemma forEach_update_pc {A} (xs : list A) r
    (f : A → RTCPeerConnection → RTCPeerConnection) s :
  forEach xs (λ x, update_pc r (f x)) s
  = (Ok tt, set_pcHeap (λ hp, foldl (λ hp x, alter (f x) r hp) hp xs) s).
Proof.
  unfold update_pc.
  rewrite (forEach_modify xs (λ x, set_pcHeap (alter (f x) r))).
  by rewrite (foldl_set_pcHeap xs (λ x, alter (f x) r)).
Qed.

Lemma forEach_update_track (xs : list nat)
    (f : MediaStreamTrack → MediaStreamTrack) s :
  forEach xs (λ t, update_track t f) s
  = (Ok tt, set_trackHeap (λ hp, foldl (λ hp t, alter f t hp) hp xs) s).
Proof.
  unfold update_track.
  rewrite (forEach_modify xs (λ t, set_trackHeap (alter f t))).
  by rewrite (foldl_set_trackHeap xs (λ t, alter f t)).
Qed.

(** Updating the objects of a list of references, one after the other. *)
Lemma length_foldl_alter {A B} (f : B → A → A) (g : B → nat) (xs : list B)
    (hp : list A) :
  length (foldl (λ hp x, alter (f x) (g x) hp) hp xs) = length hp.
Proof.
  revert hp. induction xs as [|x xs IH]; intros hp; simpl; [done|].
  by rewrite IH, length_alter.
Qed.

Lemma lookup_foldl_alter_notin {A} (f : A → A) (xs : list nat) (hp : list A) t :
  t ∉ xs → foldl (λ hp t, alter f t hp) hp xs !! t = hp !! t.
Proof.
  revert hp. induction xs as [|x xs IH]; intros hp Hnot; simpl; [done|].
  apply not_elem_of_cons in Hnot as [Hne Hnot].
  rewrite IH by done. by apply list_lookup_alter_ne.
Qed.

Lemma lookup_foldl_alter_once {A} (f : A → A) (xs : list nat) (hp : list A) t :
  NoDup xs → t ∈ xs →
  foldl (λ hp t, alter f t hp) hp xs !! t = f <$> hp !! t.
Proof.
  revert hp. induction xs as [|x xs IH]; intros hp Hnd Hin; simpl.
  - by apply elem_of_nil in Hin.
  - apply NoDup_cons in Hnd as [Hx Hnd].
    apply elem_of_cons in Hin as [->|Hin].
    + rewrite lookup_foldl_alter_notin by done. apply list_lookup_alter_eq.
    + rewrite IH by done. rewrite list_lookup_alter_ne; [done|].
      intros ->. done.
Qed.

Lemma lookup_foldl_alter_idemp {A} (f : A → A) (xs : list nat) (hp : list A) t :
  (∀ a, f (f a) = f a) → t ∈ xs →
  foldl (λ hp t, alter f t hp) hp xs !! t = f <$> hp !! t.
Proof.
  intros Hf. revert hp. induction xs as [|x xs IH]; intros hp Hin; simpl.
  - by apply elem_of_nil in Hin.
  - destruct (decide (t ∈ xs)) as [Hin'|Hnot].
    + rewrite IH by done. destruct (decide (x = t)) as [->|Hne].
      * rewrite list_lookup_alter_eq. destruct (hp !! t); simpl; [|done].
        by rewrite Hf.
      * by rewrite list_lookup_alter_ne.
    + apply elem_of_cons in Hin as [->|Hin]; [|done].
      rewrite lookup_foldl_alter_notin by done. apply list_lookup_alter_eq.
Qed.

Lemma fmap_foldl_alter {A B} (p : A → B) (f : A → A) (xs : list nat)
    (hp : list A) :
  (∀ a, p (f a) = p a) →
  p <$> foldl (λ hp t, alter f t hp) hp xs = p <$> hp.
Proof.
  intros Hp. revert hp. induction xs as [|x xs IH]; intros hp; simpl; [done|].
  rewrite IH. apply list_eq. intros i. rewrite !list_lookup_fmap.
  destruct (decide (x = i)) as [->|Hne].
  - rewrite list_lookup_alter_eq. destruct (hp !! i); simpl; [|done].
    by rewrite Hp.
  - by rewrite list_lookup_alter_ne.
Qed.

Lemma fmap_alter_same {A B} (p : A → B) (f : A → A) r (hp : list A) :
  (∀ a, p (f a) = p a) → p <$> alter f r hp = p <$> hp.
Proof.
  intros Hp. apply list_eq. intros i. rewrite !list_lookup_fmap.
  destruct (decide (r = i)) as [->|Hne].
  - rewrite list_lookup_alter_eq. destruct (hp !! i); simpl; [|done].
    by rewrite Hp.
  - by rewrite list_lookup_alter_ne.
Qed.

(** ** [consistent] looks at five things only *)

Lemma consistent_view s s' :
  remoteMutedMap s' = remoteMutedMap s →
  peersRef s' = peersRef s →
  el_muted <$> audioHeap s' = el_muted <$> audioHeap s →
  joined s' = joined s →
  localStreamRef s' = localStreamRef s →
  kind <$> trackHeap s' = kind <$> trackHeap s →
  consistent s → consistent s'.
Proof.
  intros Hm Hp Ha Hj Hl Ht [H1 H2 H3 H4 H5].
  split; rewrite ?Hm, ?Hp, ?Ha, ?Hj, ?Hl, ?Ht; done.
Qed.

Lemma consistent_mounted : consistent mounted.
Proof.
  split; simpl; done.
Qed.

(** ** [createPeerConnection] *)

Ltac open_createPeerConnection :=
  unfold createPeerConnection;
  unfold bind at 1; unfold new_RTCPeerConnection at 1;
  unfold bind at 1; unfold createElement_audio at 1;
  run_js.

Ltac heap_facts :=
  repeat first
    [ reflexivity
    | rewrite (length_foldl_alter _ (λ _, _))
    | rewrite length_alter
    | rewrite length_app
    | rewrite fmap_alter_same by (by intros [])
    | rewrite fmap_app
    | simpl; lia ].

Lemma createPeerConnection_allocates h id s :
  let s' := (createPeerConnection h id s).2 in
  length (pcHeap s') = S (length (pcHeap s))
  ∧ el_muted <$> audioHeap s' = (el_muted <$> audioHeap s) ++ [false]
  ∧ joined s' = joined s
  ∧ localMuted s' = localMuted s
  ∧ emitted s' = emitted s.
Proof.
  open_createPeerConnection.
  destruct (localStreamRef s) as [stream|] eqn:Hs; simpl.
  - rewrite forEach_update_pc. run_host. repeat split; heap_facts.
  - unfold getUserMedia. destruct (mic h); simpl.
    + rewrite forEach_update_pc. run_host. repeat split; heap_facts.
    + run_host. repeat split; heap_facts.
Qed.

Lemma createPeerConnection_denied h id s :
  localStreamRef s = None → mic h = None →
  let s' := (createPeerConnection h id s).2 in
  (createPeerConnection h id s).1 = Throw NotAllowedError
  ∧ peersRef s' = peersRef s
  ∧ remoteMutedMap s' = remoteMutedMap s
  ∧ localStreamRef s' = None
  ∧ trackHeap s' = trackHeap s
  ∧ console s' = console s ++ [ConsoleError "Microphone access denied"].
Proof.
  intros Hs Hmic. open_createPeerConnection. rewrite Hs. simpl.
  unfold getUserMedia. rewrite Hmic. run_host. by rewrite Hs.
Qed.

Lemma createPeerConnection_built h id s :
  is_Some (localStreamRef s) ∨ is_Some (mic h) →
  let s' := (createPeerConnection h id s).2 in
  (createPeerConnection h id s).1 = Ok (fresh_entry s)
  ∧ peersRef s' = <[id := fresh_entry s]> (peersRef s)
  ∧ remoteMutedMap s' = <[id := false]> (remoteMutedMap s)
  ∧ localStreamRef s' = Some (stream_after h s)
  ∧ trackHeap s' = tracks_after h s
  ∧ console s' = console s.
Proof.
  intros Hok. open_createPeerConnection.
  unfold stream_after, tracks_after, fresh_entry.
  destruct (localStreamRef s) as [stream|] eqn:Hs; simpl.
  - rewrite forEach_update_pc. run_host. by rewrite Hs.
  - destruct Hok as [[? ?]|[n Hn]]; [done|].
    unfold getUserMedia. rewrite Hn. simpl.
    rewrite forEach_update_pc. run_host. done.
Qed.

(** A build either raises the rejection or returns the fresh entry. *)
Lemma createPeerConnection_cases h s :
  (localStreamRef s = None ∧ mic h = None)
  ∨ (is_Some (localStreamRef s) ∨ is_Some (mic h)).
Proof.
  destruct (localStreamRef s); [right; left; eauto|].
  destruct (mic h); [right; right; eauto|by left].
Qed.

Lemma kinds_after h s :
  kind <$> tracks_after h s
  = match localStreamRef s with
    | Some _ => kind <$> trackHeap s
    | None => (kind <$> trackHeap s) ++ replicate (default 0 (mic h)) Audio
    end.
Proof.
  unfold tracks_after. destruct (localStreamRef s); [done|].
  by rewrite fmap_app, fmap_replicate.
Qed.

Lemma fresh_stream_tracks (kinds : list TrackKind) n :
  NoDup (seq (length kinds) n)
  ∧ Forall (λ t, (kinds ++ replicate n Audio) !! t = Some Audio)
      (seq (length kinds) n).
Proof.
  split; [apply NoDup_seq|].
  apply Forall_forall. intros t Ht. apply elem_of_seq in Ht.
  rewrite lookup_app_r by lia. apply lookup_replicate. split; [done|lia].
Qed.

Lemma createPeerConnection_consistent h id s :
  consistent s → consistent (createPeerConnection h id s).2.
Proof.
  intros Hc.
  destruct (createPeerConnection_allocates h id s) as (_ & Ha & Hj & _ & _).
  destruct (createPeerConnection_cases h s) as [[Hs Hmic]|Hok].
  - destruct (createPeerConnection_denied h id s Hs Hmic)
      as (_ & Hp & Hm & Hl & Ht & _).
    destruct Hc as [H1 H2 H3 H4 H5].
    split; rewrite ?Hp, ?Hm, ?Ha, ?Hj, ?Hl, ?Ht; try done.
    + intros k e Hk. apply lookup_app_l_Some. eauto.
    + rewrite <- Hs. done.
  - destruct (createPeerConnection_built h id s Hok)
      as (_ & Hp & Hm & Hl & Ht & _).
    destruct Hc as [H1 H2 H3 H4 H5].
    assert (Hlen : ∀ k e, peersRef s !! k = Some e →
                          audioEl e < length (audioHeap s)).
    { intros k e Hk. apply H2 in Hk. apply lookup_lt_Some in Hk.
      by rewrite length_fmap in Hk. }
    split; rewrite ?Hp, ?Hm, ?Ha, ?Hj, ?Hl, ?Ht.
    + intros k. rewrite !lookup_insert. case_decide; [done|apply H1].
    + intros k e. rewrite lookup_insert. case_decide.
      * intros [= <-]. simpl. rewrite lookup_app_r; rewrite length_fmap; [|lia].
        by rewrite Nat.sub_diag.
      * intros Hk. apply lookup_app_l_Some. eauto.
    + intros k1 k2 e1 e2. rewrite !lookup_insert.
      repeat case_decide; subst; try done.
      * intros [= <-] Hk. simpl. intros He. apply Hlen in Hk. lia.
      * intros Hk [= <-]. simpl. intros He. apply Hlen in Hk. lia.
      * apply H3.
    + eauto.
    + intros stream [= <-]. rewrite kinds_after. unfold stream_after.
      destruct (localStreamRef s) as [st|] eqn:Hs; [by apply H5|].
      rewrite <- (length_fmap kind). apply fresh_stream_tracks.
Qed.

(** ** [cleanupPeer] *)

Lemma cleanupPeer_absent h id s :
  peersRef s !! id = None → cleanupPeer h id s = (Ok tt, s).
Proof. intros H. unfold cleanupPeer, bind, gets. by rewrite H. Qed.

Lemma cleanupPeer_present h id s e :
  peersRef s !! id = Some e →
  ∃ children,
    cleanupPeer h id s
    = (Ok tt,
       mkVoiceChat (joined s) (localMuted s) (delete id (remoteMutedMap s))
         (localStreamRef s) (delete id (peersRef s)) children (trackHeap s)
         (if close_throws h (pc e) then pcHeap s
          else alter set_pc_closed (pc e) (pcHeap s))
         (alter (set_srcObject None) (audioEl e) (audioHeap s))
         (emitted s) (console s)).
Proof.
  intros H. unfold cleanupPeer, bind at 1, gets at 1. rewrite H.
  unfold pc_close, parentNode, removeChild. run_js.
  destruct (close_throws h (pc e)); run_host;
    destruct (audioContainerRef s) as [children|]; simpl;
    try destruct (bool_decide (audioEl e ∈ children)); simpl;
    try destruct (removeChild_throws h (audioEl e)); simpl; eauto.
Qed.

(** What a teardown leaves alone. *)
Lemma cleanupPeer_frame h id s :
  let s' := (cleanupPeer h id s).2 in
  (cleanupPeer h id s).1 = Ok tt
  ∧ peersRef s' = delete id (peersRef s)
  ∧ remoteMutedMap s'
    = match peersRef s !! id with
      | Some _ => delete id (remoteMutedMap s)
      | None => remoteMutedMap s
      end
  ∧ el_muted <$> audioHeap s' = el_muted <$> audioHeap s
  ∧ joined s' = joined s
  ∧ localMuted s' = localMuted s
  ∧ localStreamRef s' = localStreamRef s
  ∧ trackHeap s' = trackHeap s
  ∧ emitted s' = emitted s
  ∧ console s' = console s.
Proof.
  destruct (peersRef s !! id) as [e|] eqn:H.
  - destruct (cleanupPeer_present h id s e H) as [children ->]. simpl.
    repeat split. by apply fmap_alter_same; intros [].
  - rewrite cleanupPeer_absent by done. simpl.
    repeat split. by rewrite delete_id.
Qed.

Lemma cleanupPeer_consistent h id s :
  consistent s → consistent (cleanupPeer h id s).2.
Proof.
  intros Hc.
  destruct (cleanupPeer_frame h id s)
    as (_ & Hp & Hm & Ha & Hj & _ & Hl & Ht & _).
  destruct (peersRef s !! id) as [e|] eqn:H.
  - destruct Hc as [H1 H2 H3 H4 H5].
    split; rewrite ?Hp, ?Hm, ?Ha, ?Hj, ?Hl, ?Ht; try done.
    + intros k. rewrite !lookup_delete. case_decide; [done|apply H1].
    + intros k e'. rewrite lookup_delete. case_decide; [done|apply H2].
    + intros k1 k2 e1 e2. rewrite !lookup_delete.
      repeat case_decide; try done. apply H3.
  - rewrite delete_id in Hp by done.
    eapply consistent_view; try done. by rewrite Ht.
Qed.

(** Tearing down a list of peers, as [leaveVoice] does. *)
Lemma forEach_cleanupPeer h ids s :
  let s' := (forEach ids (cleanupPeer h) s).2 in
  (forEach ids (cleanupPeer h) s).1 = Ok tt
  ∧ (∀ k, peersRef s' !! k = if decide (k ∈ ids) then None else peersRef s !! k)
  ∧ (consistent s → consistent s')
  ∧ (in_sync s → in_sync s')
  ∧ joined s' = joined s
  ∧ localMuted s' = localMuted s
  ∧ localStreamRef s' = localStreamRef s
  ∧ trackHeap s' = trackHeap s
  ∧ emitted s' = emitted s
  ∧ console s' = console s.
Proof.
  revert s. induction ids as [|id ids IH]; intros s; simpl.
  - split_and!; done.
  - unfold bind.
    destruct (cleanupPeer_frame h id s)
      as (Hr & Hp & Hm & Ha & Hj & Hlm & Hl & Ht & He & Hcon).
    pose proof (cleanupPeer_consistent h id s) as Hcons.
    destruct (cleanupPeer h id s) as [[[]|x] s1]; simpl in *; [|done].
    destruct (IH s1) as (Hr' & Hp' & Hcons' & Hsync' & Hj' & Hlm' & Hl' & Ht' & He' & Hcon').
    split_and!; try congruence; try tauto.
    + intros k. rewrite Hp', Hp. rewrite lookup_delete.
      destruct (decide (k ∈ ids)) as [Hin|Hnot].
      * rewrite decide_True; [done|]. by right.
      * destruct (decide (id = k)) as [->|Hne].
        -- rewrite decide_True; [done|]. by left.
        -- rewrite decide_False; [done|].
           intros Hin. apply elem_of_cons in Hin as [->|Hin]; done.
    + intros Hs. apply Hsync'. unfold in_sync in *. rewrite Hp, Hm.
      destruct (peersRef s !! id) as [e|] eqn:Hid.
      * rewrite !dom_delete_L. by rewrite Hs.
      * by rewrite delete_id.
Qed.

Lemma elem_of_keys (m : gmap string PeerEntry) k :
  k ∈ keys m ↔ is_Some (m !! k).
Proof.
  unfold keys. rewrite list_elem_of_fmap. split.
  - intros [[k' e] [-> Hin]]. apply elem_of_map_to_list in Hin. eauto.
  - intros [e He]. exists (k, e). split; [done|].
    by apply elem_of_map_to_list.
Qed.

(** ** Properties kept by every step of a computation *)

Section Preserves.
Context (I : VoiceChat → Prop).

Lemma preserves_ret {A} (a : A) : preserves I (ret a).
Proof. by intros s. Qed.

Lemma preserves_throw {A} e : preserves I (@throw A e).
Proof. by intros s. Qed.

Lemma preserves_gets {A} (f : VoiceChat → A) : preserves I (gets f).
Proof. by intros s. Qed.

Lemma preserves_modify f : (∀ s, I s → I (f s)) → preserves I (modify f).
Proof. intros Hf s. apply Hf. Qed.

Lemma preserves_bind {A B} (m : M A) (k : A → M B) :
  preserves I m → (∀ a, preserves I (k a)) → preserves I (bind m k).
Proof.
  intros Hm Hk s Hs. unfold bind. specialize (Hm s Hs).
  destruct (m s) as [[a|e] s1]; simpl in *; [by apply Hk|done].
Qed.

Lemma preserves_try_catch {A} (m : M A) (handler : Exn → M A) :
  preserves I m → (∀ e, preserves I (handler e)) →
  preserves I (try_catch m handler).
Proof.
  intros Hm Hh s Hs. unfold try_catch. specialize (Hm s Hs).
  destruct (m s) as [[a|e] s1]; simpl in *; [done|by apply Hh].
Qed.

Lemma preserves_unawaited (m : M unit) :
  preserves I m → preserves I (unawaited m).
Proof.
  intros Hm. apply preserves_try_catch; [done|].
  intros _. apply preserves_ret.
Qed.

Lemma preserves_forEach {A} (xs : list A) (f : A → M unit) :
  (∀ x, preserves I (f x)) → preserves I (forEach xs f).
Proof.
  intros Hf. induction xs as [|x xs IH]; simpl.
  - apply preserves_ret.
  - apply preserves_bind; [apply Hf|by intros _].
Qed.
End Preserves.

Create HintDb preserve.

Ltac preserve :=
  repeat first
    [ solve [auto with preserve]
    | apply preserves_ret
    | apply preserves_throw
    | apply preserves_gets
    | apply preserves_unawaited
    | apply preserves_bind; [|intros ?]
    | apply preserves_try_catch; [|intros ?]
    | apply preserves_forEach; intros ?
    | match goal with
      | |- preserves _ (match ?x with _ => _ end) => destruct x
      end ].

(** Calls that touch only connections, the console and the relay keep
    [consistent]. *)
Lemma consistent_set_pcHeap f s : consistent s → consistent (set_pcHeap f s).
Proof. by apply consistent_view. Qed.

Lemma consistent_push_log l s : consistent s → consistent (push_log l s).
Proof. by apply consistent_view. Qed.

Lemma consistent_push_emit e s : consistent s → consistent (push_emit e s).
Proof. by apply consistent_view. Qed.

Lemma consistent_set_container f s :
  consistent s → consistent (set_container f s).
Proof. by apply consistent_view. Qed.

Lemma consistent_set_srcObject r v s :
  consistent s → consistent (set_audioHeap (alter (set_srcObject v) r) s).
Proof.
  apply consistent_view; try done. simpl.
  by apply fmap_alter_same; intros [].
Qed.

Lemma preserves_update_pc r f : preserves consistent (update_pc r f).
Proof. apply preserves_modify, consistent_set_pcHeap. Qed.

Lemma preserves_console_error msg : preserves consistent (console_error msg).
Proof. apply preserves_modify, consistent_push_log. Qed.

Lemma preserves_console_warn msg : preserves consistent (console_warn msg).
Proof. apply preserves_modify, consistent_push_log. Qed.

Lemma preserves_socket_emit e : preserves consistent (socket_emit e).
Proof. apply preserves_modify, consistent_push_emit. Qed.

Lemma preserves_createOffer h r : preserves consistent (createOffer h r).
Proof. unfold createOffer. preserve. Qed.

Lemma preserves_createAnswer h r : preserves consistent (createAnswer h r).
Proof. unfold createAnswer. preserve. Qed.

Lemma preserves_setLocalDescription h r d :
  preserves consistent (setLocalDescription h r d).
Proof.
  unfold setLocalDescription. destruct (setLocalDescription_ok h r).
  - apply preserves_update_pc.
  - apply preserves_throw.
Qed.

Lemma preserves_setRemoteDescription h r d :
  preserves consistent (setRemoteDescription h r d).
Proof.
  unfold setRemoteDescription. destruct (setRemoteDescription_ok h r).
  - apply preserves_update_pc.
  - apply preserves_throw.
Qed.

Lemma preserves_addIceCandidate h r c :
  preserves consistent (addIceCandidate h r c).
Proof.
  unfold addIceCandidate. destruct (addIceCandidate_ok h r).
  - apply preserves_update_pc.
  - apply preserves_throw.
Qed.

Lemma preserves_createPeerConnection h id :
  preserves consistent (createPeerConnection h id).
Proof. intros s. apply createPeerConnection_consistent. Qed.

Lemma preserves_cleanupPeer h id : preserves consistent (cleanupPeer h id).
Proof. intros s. apply cleanupPeer_consistent. Qed.

#[local] Hint Resolve preserves_update_pc preserves_console_error
  preserves_console_warn preserves_socket_emit preserves_createOffer
  preserves_createAnswer preserves_setLocalDescription
  preserves_setRemoteDescription preserves_addIceCandidate
  preserves_createPeerConnection preserves_cleanupPeer : preserve.

Lemma preserves_handleOffer h offer id :
  preserves consistent (handleOffer h offer id).
Proof. unfold handleOffer. preserve. Qed.

Lemma preserves_handleAnswer h answer id :
  preserves consistent (handleAnswer h answer id).
Proof. unfold handleAnswer. preserve. Qed.

Lemma preserves_handleIce h candidate id :
  preserves consistent (handleIce h candidate id).
Proof. unfold handleIce. preserve. Qed.

Lemma preserves_membershipEffect h self users :
  preserves consistent (membershipEffect h self users).
Proof. unfold membershipEffect. preserve. Qed.

Lemma preserves_handleUserLeft h user :
  preserves consistent (handleUserLeft h user).
Proof. unfold handleUserLeft. preserve. Qed.

Lemma preserves_onicecandidate r candidate :
  preserves consistent (onicecandidate r candidate).
Proof. unfold onicecandidate. preserve. Qed.

Lemma preserves_ontrack r stream0 :
  preserves consistent (ontrack r stream0).
Proof.
  unfold ontrack. preserve.
  apply preserves_modify. intros s. apply consistent_set_srcObject.
Qed.

(** ** [joinVoice] and [leaveVoice] *)

Lemma joinVoice_eq h s :
  joinVoice h s
  = (Ok tt,
     if joined s then s
     else match mic h with
          | Some n => granted n s
          | None => push_log (ConsoleError "Microphone access denied") s
          end).
Proof.
  unfold joinVoice, getUserMedia. run_js.
  destruct (joined s); [done|]. by destruct (mic h).
Qed.

Lemma preserves_joinVoice h : preserves consistent (joinVoice h).
Proof.
  intros s Hc. rewrite joinVoice_eq. simpl.
  destruct (joined s) eqn:Hj; [done|].
  destruct (mic h) as [n|]; [|by apply consistent_push_log].
  destruct Hc as [H1 H2 H3 H4 H5]. split; simpl; try done.
  intros stream [= <-]. rewrite fmap_app, fmap_replicate.
  rewrite <- (length_fmap kind). apply fresh_stream_tracks.
Qed.

Lemma leaveVoice_eq h s :
  leaveVoice h s = forEach (keys (peersRef s)) (cleanupPeer h) (released s).
Proof.
  unfold leaveVoice, released.
  unfold bind at 1, modify at 1. unfold bind at 1, gets at 1. simpl.
  destruct (localStreamRef s) as [stream|]; unfold bind at 1.
  - unfold bind at 1. rewrite forEach_update_track. by run_js.
  - by run_js.
Qed.

Lemma consistent_released s : consistent s → consistent (released s).
Proof.
  intros [H1 H2 H3 H4 H5]. unfold released.
  destruct (localStreamRef s) as [stream|] eqn:Hs; split; simpl; try done.
  by rewrite Hs.
Qed.

Lemma preserves_leaveVoice h : preserves consistent (leaveVoice h).
Proof.
  intros s Hc. rewrite leaveVoice_eq.
  apply forEach_cleanupPeer. by apply consistent_released.
Qed.

Lemma setJoined_id s : setJoined (joined s) s = s.
Proof. by destruct s. Qed.

Lemma leaveVoice_facts h s :
  let s' := (leaveVoice h s).2 in
  (leaveVoice h s).1 = Ok tt
  ∧ peersRef s' = ∅
  ∧ localStreamRef s' = None
  ∧ joined s' = false
  ∧ trackHeap s' = trackHeap (released s)
  ∧ localMuted s' = localMuted s
  ∧ emitted s' = emitted s
  ∧ console s' = console s.
Proof.
  rewrite leaveVoice_eq.
  destruct (forEach_cleanupPeer h (keys (peersRef s)) (released s))
    as (Hr & Hp & _ & _ & Hj & Hlm & Hl & Ht & He & Hcon).
  assert (Hsame : peersRef (released s) = peersRef s).
  { unfold released. by destruct (localStreamRef s). }
  split_and!; try done.
  - apply map_empty. intros k. rewrite Hp. destruct (decide _) as [|Hk]; [done|].
    rewrite Hsame. apply eq_None_not_Some. intros Hsome.
    apply Hk. by apply elem_of_keys.
  - rewrite Hl. unfold released. by destruct (localStreamRef s) eqn:E.
  - rewrite Hj. unfold released. by destruct (localStreamRef s).
  - rewrite Hlm. unfold released. by destruct (localStreamRef s).
  - rewrite He. unfold released. by destruct (localStreamRef s).
  - rewrite Hcon. unfold released. by destruct (localStreamRef s).
Qed.

(** Once left, leaving again changes nothing. *)
Lemma leaveVoice_idle h s :
  joined s = false → localStreamRef s = None → peersRef s = ∅ →
  leaveVoice h s = (Ok tt, s).
Proof.
  intros Hj Hl Hp. rewrite leaveVoice_eq. unfold released.
  rewrite Hl, Hp. unfold keys. rewrite map_to_list_empty. simpl.
  unfold ret. by rewrite <- Hj, setJoined_id.
Qed.

(** ** The two mute toggles *)

Lemma toggleLocalMute_eq s :
  toggleLocalMute s
  = (Ok tt,
     match localStreamRef s with
     | None => s
     | Some stream =>
         setLocalMuted negb
           (set_trackHeap
              (λ hp, foldl (λ hp t, alter flip_enabled t hp) hp
                       (audio_of s stream)) s)
     end).
Proof.
  unfold toggleLocalMute, getAudioTracks.
  unfold bind at 1, gets at 1.
  destruct (localStreamRef s) as [stream|]; [|done].
  unfold bind at 1, gets at 1. unfold bind at 1.
  fold flip_enabled. rewrite forEach_update_track. by run_js.
Qed.

Lemma preserves_toggleLocalMute : preserves consistent toggleLocalMute.
Proof.
  intros s. rewrite toggleLocalMute_eq. simpl.
  destruct (localStreamRef s) as [stream|] eqn:Hs; [|done].
  apply consistent_view; try done. simpl.
  by apply fmap_foldl_alter; intros [].
Qed.

Lemma toggleRemoteMute_eq id s :
  toggleRemoteMute id s
  = (Ok tt,
     match peersRef s !! id with
     | None => s
     | Some e =>
         setRemoteMutedMap (insert id (next_muted s id))
           (set_audioHeap (alter (set_el_muted (next_muted s id)) (audioEl e))
              (set_peersRef (insert id (set_muted (next_muted s id) e)) s))
     end).
Proof.
  unfold toggleRemoteMute. run_js. by destruct (peersRef s !! id).
Qed.

Lemma preserves_toggleRemoteMute id : preserves consistent (toggleRemoteMute id).
Proof.
  intros s Hc. rewrite toggleRemoteMute_eq. simpl.
  destruct (peersRef s !! id) as [e|] eqn:He; [|done].
  destruct Hc as [H1 H2 H3 H4 H5]. split; simpl; try done.
  - intros k. rewrite !lookup_insert. case_decide; [done|apply H1].
  - intros k e'. rewrite lookup_insert. case_decide as Hk.
    + intros [= <-]. simpl. rewrite list_lookup_fmap, list_lookup_alter_eq.
      specialize (H2 _ _ He). rewrite list_lookup_fmap in H2.
      by destruct (audioHeap s !! audioEl e).
    + intros Hk'. rewrite list_lookup_fmap, list_lookup_alter_ne.
      * rewrite <- list_lookup_fmap. by eapply H2.
      * intros Heq. apply Hk. by eapply H3.
  - intros k1 k2 e1 e2. rewrite !lookup_insert.
    repeat case_decide; subst; try done.
    + intros [= <-] Hk. simpl. by eapply H3.
    + intros Hk [= <-]. simpl. by eapply H3.
    + apply H3.
Qed.

(** ** Every reachable state is consistent *)

Lemma preserves_handle h e : preserves consistent (handle h e).
Proof.
  destruct e; simpl.
  - apply preserves_joinVoice.
  - apply preserves_leaveVoice.
  - apply preserves_toggleLocalMute.
  - apply preserves_toggleRemoteMute.
  - apply preserves_handleOffer.
  - apply preserves_handleAnswer.
  - apply preserves_handleIce.
  - apply preserves_membershipEffect.
  - apply preserves_handleUserLeft.
  - apply preserves_onicecandidate.
  - apply preserves_ontrack.
Qed.

Lemma run_preserves evs s : consistent s → consistent (run evs s).
Proof.
  revert s. induction evs as [|[h e] evs IH]; intros s Hs; simpl; [done|].
  apply IH. by apply preserves_handle.
Qed.

Lemma run_consistent evs : consistent (run evs mounted).
Proof. apply run_preserves, consistent_mounted. Qed.

Lemma consistent_in_sync s : consistent s → in_sync s.
Proof.
  intros [H1 _ _ _ _]. unfold in_sync. apply set_eq. intros k.
  rewrite !elem_of_dom, H1. by rewrite fmap_is_Some.
Qed.

(** * The claims *)

(** ** Teardown *)

(** C6.  [cleanupPeer] never raises, whatever the host does when the
    connection is closed or the audio element detached, and whether or not
    the table has an entry for [id]; afterwards the table has no entry for
    [id]; a second call in a row, and a call on a table from which [id] was
    removed, return normally and change nothing. *)
Theorem cleanupPeer_never_raises h h' id s :
  let s' := (cleanupPeer h id s).2 in
  (cleanupPeer h id s).1 = Ok tt
  ∧ peersRef s' !! id = None
  ∧ cleanupPeer h' id s' = (Ok tt, s')
  ∧ cleanupPeer h id (set_peersRef (delete id) s)
    = (Ok tt, set_peersRef (delete id) s).
Proof.
  destruct (cleanupPeer_frame h id s) as (Hr & Hp & _).
  assert (Hgone : peersRef (cleanupPeer h id s).2 !! id = None).
  { rewrite Hp. apply lookup_delete_eq. }
  split_and!; [done|done| |].
  - by apply cleanupPeer_absent.
  - apply cleanupPeer_absent. simpl. apply lookup_delete_eq.
Qed.

(** ** Leaving *)

Lemma released_tracks s :
  Forall (λ t, readyState <$> trackHeap (released s) !! t
               = (λ _, Ended) <$> trackHeap s !! t)
    (default [] (localStreamRef s)).
Proof.
  unfold released. destruct (localStreamRef s) as [stream|]; simpl; [|done].
  apply Forall_forall. intros t Ht.
  rewrite lookup_foldl_alter_idemp by done.
  by destruct (trackHeap s !! t).
Qed.

(** C2.  From any state, hence after any sequence of join and leave calls,
    [leaveVoice] returns normally and leaves the table empty, no stream
    held, every track of the stream that was held ended, and [joined]
    false; a second [leaveVoice] in a row returns normally and changes
    nothing. *)
Theorem leaveVoice_releases_everything h h' s :
  let s' := (leaveVoice h s).2 in
  (leaveVoice h s).1 = Ok tt
  ∧ peersRef s' = ∅
  ∧ localStreamRef s' = None
  ∧ joined s' = false
  ∧ Forall (λ t, readyState <$> trackHeap s' !! t
                 = (λ _, Ended) <$> trackHeap s !! t)
      (default [] (localStreamRef s))
  ∧ leaveVoice h' s' = (Ok tt, s').
Proof.
  destruct (leaveVoice_facts h s) as (Hr & Hp & Hl & Hj & Ht & _).
  split_and!; try done.
  - rewrite Ht. apply released_tracks.
  - by apply leaveVoice_idle.
Qed.

(** In a consistent state the tracks of the held stream exist, so each of
    them is ended once [leaveVoice] has run. *)
Lemma leaveVoice_ends_tracks h s stream :
  consistent s → localStreamRef s = Some stream →
  Forall (λ t, readyState <$> trackHeap (leaveVoice h s).2 !! t = Some Ended)
    stream.
Proof.
  intros Hc Hs.
  destruct (leaveVoice_facts h s) as (_ & _ & _ & _ & Heq & _).
  pose proof (released_tracks s) as Ht. rewrite <- Heq, Hs in Ht.
  simpl in Ht.
  destruct (stream_tracks s Hc stream Hs) as [_ Hall].
  rewrite Forall_forall in *. intros t Hin. rewrite (Ht t Hin).
  specialize (Hall t Hin). rewrite list_lookup_fmap in Hall.
  by destruct (trackHeap s !! t).
Qed.

(** ** Building a session *)

(** C8.  When no stream is held and the host refuses the microphone,
    [createPeerConnection] raises the refusal to its caller and registers
    nothing: the table and the mute map are as before. *)
Theorem createPeerConnection_no_partial_registration h id s :
  localStreamRef s = None → mic h = None →
  let s' := (createPeerConnection h id s).2 in
  (createPeerConnection h id s).1 = Throw NotAllowedError
  ∧ peersRef s' = peersRef s
  ∧ remoteMutedMap s' = remoteMutedMap s.
Proof.
  intros Hs Hmic.
  destruct (createPeerConnection_denied h id s Hs Hmic) as (Hr & Hp & Hm & _).
  done.
Qed.

Lemma createPeerConnection_no_partial_registration_witness :
  (createPeerConnection refusing "B" mounted).1 = Throw NotAllowedError
  ∧ peersRef (createPeerConnection refusing "B" mounted).2 = peersRef mounted
  ∧ remoteMutedMap (createPeerConnection refusing "B" mounted).2
    = remoteMutedMap mounted.
Proof.
  apply (createPeerConnection_no_partial_registration refusing "B" mounted);
    reflexivity.
Defined.

(** ** Answers *)

(** C7.  [handleAnswer] never raises and never changes the table.  With no
    entry for the sender it changes nothing at all.  With an entry, the
    answer becomes the remote description of the entry's connection when
    the host accepts it; when the host rejects it, one warning is logged
    and nothing else changes. *)
Theorem handleAnswer_drops_stale h answer sender s :
  let s' := (handleAnswer h answer sender s).2 in
  (handleAnswer h answer sender s).1 = Ok tt
  ∧ peersRef s' = peersRef s
  ∧ (peersRef s !! sender = None → s' = s)
  ∧ (∀ e, peersRef s !! sender = Some e →
       s' = if setRemoteDescription_ok h (pc e)
            then set_pcHeap (alter (set_pc_remote answer) (pc e)) s
            else push_log (ConsoleWarn "Failed to set remote answer") s).
Proof.
  unfold handleAnswer, setRemoteDescription. run_js.
  destruct (peersRef s !! sender) as [e|] eqn:He; simpl.
  - destruct (setRemoteDescription_ok h (pc e)) eqn:Hok; run_host;
      split_and!; try done; intros e' [= <-]; by rewrite Hok.
  - split_and!; done.
Qed.

Lemma handleAnswer_drops_stale_witness :
  (handleAnswer willing "sdp" "X" offered).2 = offered
  ∧ (handleAnswer rejecting "sdp" "B" offered).2
    = push_log (ConsoleWarn "Failed to set remote answer") offered.
Proof.
  split.
  - apply (handleAnswer_drops_stale willing "sdp" "X" offered). reflexivity.
  - apply (handleAnswer_drops_stale rejecting "sdp" "B" offered
             : _ ∧ _ ∧ _ ∧ ∀ e, _ → _ = _) with (e := mkEntry 0 0 false).
    reflexivity.
Defined.

(** ** Joining *)

(** C3, as the spec states it, fails: a refused microphone is not raised to
    the caller of [joinVoice], which returns normally. *)
Lemma joinVoice_swallows_refusal :
  joined mounted = false
  ∧ mic refusing = None
  ∧ (joinVoice refusing mounted).1 = Ok tt
  ∧ (joinVoice refusing mounted).1 ≠ Throw NotAllowedError.
Proof. by split_and!. Qed.

(** C3, amended.  [joinVoice] always returns normally.  When already
    joined it changes nothing.  Otherwise it acquires the local stream:
    when the microphone is granted a stream is held afterwards (the granted
    one when none was held before), [joined] is true and [localMuted]
    false, and the table is as before; when it is refused, the refusal is
    caught, one error line is logged and nothing else changes. *)
Theorem joinVoice_logs_refusal h s :
  let s' := (joinVoice h s).2 in
  (joinVoice h s).1 = Ok tt
  ∧ (joined s = true → s' = s)
  ∧ (joined s = false → ∀ n, mic h = Some n →
       joined s' = true
       ∧ localMuted s' = false
       ∧ is_Some (localStreamRef s')
       ∧ (localStreamRef s = None →
            localStreamRef s' = Some (seq (length (trackHeap s)) n))
       ∧ peersRef s' = peersRef s)
  ∧ (joined s = false → mic h = None →
       s' = push_log (ConsoleError "Microphone access denied") s).
Proof.
  rewrite joinVoice_eq. simpl. split_and!; [done|..].
  - by intros ->.
  - intros -> n ->. simpl. split_and!; eauto.
  - by intros -> ->.
Qed.

Lemma joinVoice_logs_refusal_witness :
  (joinVoice refusing mounted).2
  = push_log (ConsoleError "Microphone access denied") mounted
  ∧ joined (joinVoice willing mounted).2 = true
  ∧ localStreamRef (joinVoice willing mounted).2 = Some [0].
Proof.
  split_and!.
  - apply (joinVoice_logs_refusal refusing mounted); reflexivity.
  - apply (joinVoice_logs_refusal willing mounted : _ ∧ _ ∧ (_ → ∀ n, _) ∧ _)
      with (n := 1); reflexivity.
  - apply (proj1 (proj2 (proj2 (joinVoice_logs_refusal willing mounted)))
             eq_refl 1 eq_refl).
    reflexivity.
Defined.

(** ** The local mute toggle *)

Lemma audio_of_held s stream :
  consistent s → localStreamRef s = Some stream → audio_of s stream = stream.
Proof.
  intros Hc Hs. destruct (stream_tracks s Hc stream Hs) as [_ Hall].
  clear Hs. unfold audio_of. induction Hall as [|t ts Ht _ IH]; [done|].
  rewrite filter_cons_True; [by rewrite IH|].
  by rewrite <- list_lookup_fmap.
Qed.

(** The function by itself, in a consistent state.  With no stream held it
    changes nothing.  With a stream held, which is the case whenever
    [joined] is true, it flips [localMuted] and the [enabled] flag of every
    track of the stream (all of them audio tracks), and nothing else. *)
Lemma toggleLocalMute_needs_stream s :
  consistent s →
  let s' := (toggleLocalMute s).2 in
  (toggleLocalMute s).1 = Ok tt
  ∧ (localStreamRef s = None → s' = s)
  ∧ (joined s = true → is_Some (localStreamRef s))
  ∧ (∀ stream, localStreamRef s = Some stream →
       localMuted s' = negb (localMuted s)
       ∧ Forall (λ t, kind <$> trackHeap s !! t = Some Audio
                      ∧ trackHeap s' !! t = flip_enabled <$> trackHeap s !! t)
           stream
       ∧ (∀ t, t ∉ stream → trackHeap s' !! t = trackHeap s !! t)
       ∧ s' = setLocalMuted negb (set_trackHeap (λ _, trackHeap s') s)).
Proof.
  intros Hc. rewrite toggleLocalMute_eq. simpl.
  split_and!; [done| |apply Hc|].
  - by intros ->.
  - intros stream Hs. rewrite Hs. rewrite (audio_of_held s stream Hc Hs).
    destruct (stream_tracks s Hc stream Hs) as [Hnd Hall]. simpl.
    split_and!; [done| | |done].
    + apply Forall_forall. intros t Ht. split.
      * rewrite Forall_forall in Hall. rewrite <- list_lookup_fmap. auto.
      * by apply lookup_foldl_alter_once.
    + intros t Ht. by apply lookup_foldl_alter_notin.
Qed.

Lemma clickMute_eq s :
  clickMute s = if joined s then toggleLocalMute s else (Ok tt, s).
Proof. unfold clickMute, bind, gets. by destruct (joined s). Qed.

(** C4.  The local mute toggle, as the component lets it be called (the
    Mute button is disabled while [joined] is false), requires [joined]:
    while not joined it changes nothing, [localMuted] and every track
    included; while joined a stream is held, and the toggle flips
    [localMuted] and the [enabled] flag of every track of that stream, all
    of them audio tracks, and changes nothing else. *)
Theorem toggleLocalMute_requires_joined s :
  consistent s →
  let s' := (clickMute s).2 in
  (clickMute s).1 = Ok tt
  ∧ (joined s = false → s' = s)
  ∧ (joined s = true →
     ∃ stream,
       localStreamRef s = Some stream
       ∧ localMuted s' = negb (localMuted s)
       ∧ Forall (λ t, kind <$> trackHeap s !! t = Some Audio
                      ∧ trackHeap s' !! t = flip_enabled <$> trackHeap s !! t)
           stream
       ∧ (∀ t, t ∉ stream → trackHeap s' !! t = trackHeap s !! t)
       ∧ s' = setLocalMuted negb (set_trackHeap (λ _, trackHeap s') s)).
Proof.
  intros Hc s'. subst s'. rewrite clickMute_eq.
  destruct (toggleLocalMute_needs_stream s Hc) as (Hr & _ & Hheld & Hflip).
  destruct (joined s) eqn:Hj; simpl; split_and!; try done.
  intros _. destruct (Hheld eq_refl) as [stream Hs].
  exists stream. split; [done|]. by apply Hflip.
Qed.

Lemma toggleLocalMute_requires_joined_witness :
  (clickMute answered_only).2 = answered_only
  ∧ localMuted (clickMute offered).2 = negb (localMuted offered)
  ∧ enabled <$> trackHeap (clickMute offered).2 !! 0 = Some false.
Proof.
  pose proof (toggleLocalMute_requires_joined answered_only
                (run_consistent _)) as (_ & H1 & _).
  pose proof (toggleLocalMute_requires_joined offered
                (run_consistent _)) as (_ & _ & H2).
  split; [exact (H1 eq_refl)|].
  destruct (H2 eq_refl) as (stream & Hs & Hm & Hall & _).
  split; [exact Hm|].
  assert (Hstream : stream = [0]) by (vm_compute in Hs; congruence).
  rewrite Hstream in Hall. apply Forall_inv in Hall as [_ ->]. reflexivity.
Defined.

(** ** The remote mute toggle *)

(** C5.  [toggleRemoteMute] returns normally, emits nothing and leaves the
    local stream, its tracks, the local flags and every connection as they
    were.  With no entry for [id] it changes nothing.  With an entry it
    flips the entry's [muted], the [muted] of the entry's audio element and
    the entry's mirror in the mute map; every other entry and every other
    entry's audio element stay as they were. *)
Theorem toggleRemoteMute_is_local id s :
  consistent s →
  let s' := (toggleRemoteMute id s).2 in
  (toggleRemoteMute id s).1 = Ok tt
  ∧ emitted s' = emitted s
  ∧ localStreamRef s' = localStreamRef s
  ∧ trackHeap s' = trackHeap s
  ∧ localMuted s' = localMuted s
  ∧ joined s' = joined s
  ∧ pcHeap s' = pcHeap s
  ∧ console s' = console s
  ∧ (peersRef s !! id = None → s' = s)
  ∧ (∀ e, peersRef s !! id = Some e →
       peersRef s' = <[id := set_muted (negb (muted e)) e]> (peersRef s)
       ∧ remoteMutedMap s' = <[id := negb (muted e)]> (remoteMutedMap s)
       ∧ el_muted <$> audioHeap s !! audioEl e = Some (muted e)
       ∧ audioHeap s'
         = alter (set_el_muted (negb (muted e))) (audioEl e) (audioHeap s)
       ∧ (∀ id' e', id' ≠ id → peersRef s !! id' = Some e' →
            peersRef s' !! id' = Some e'
            ∧ audioHeap s' !! audioEl e' = audioHeap s !! audioEl e')).
Proof.
  intros Hc. rewrite toggleRemoteMute_eq. simpl.
  destruct (peersRef s !! id) as [e|] eqn:He; simpl;
    split_and!; try done.
  intros e' [= <-].
  assert (Hnext : next_muted s id = negb (muted e)).
  { unfold next_muted. by rewrite (mute_mirror s Hc), He. }
  rewrite Hnext. split_and!; try done.
  - rewrite <- list_lookup_fmap. by eapply (sink_muted s Hc).
  - intros id' e' Hne He'. split.
    + by rewrite lookup_insert_ne.
    + apply list_lookup_alter_ne. intros Heq. apply Hne.
      symmetry. by eapply (sink_owned s Hc).
Qed.

Lemma toggleRemoteMute_is_local_witness :
  (toggleRemoteMute "B" offered).1 = Ok tt
  ∧ emitted (toggleRemoteMute "B" offered).2 = emitted offered
  ∧ muted <$> peersRef (toggleRemoteMute "B" offered).2 !! "B" = Some true.
Proof.
  pose proof (toggleRemoteMute_is_local "B" offered (run_consistent _)) as H.
  split_and!; [apply H|apply H|].
  destruct H as (_ & _ & _ & _ & _ & _ & _ & _ & _ & H).
  destruct (H (mkEntry 0 0 false) eq_refl) as (-> & _). reflexivity.
Defined.

(** ** Offers *)

Section IgnoresJoined.
Lemma ignores_ret {A} (a : A) : ignores_joined (ret a).
Proof. by intros b s. Qed.

Lemma ignores_throw {A} e : ignores_joined (@throw A e).
Proof. by intros b s. Qed.

Lemma ignores_gets {A} (f : VoiceChat → A) :
  (∀ b s, f (setJoined b s) = f s) → ignores_joined (gets f).
Proof. intros Hf b s. unfold gets. simpl. by rewrite Hf. Qed.

Lemma ignores_modify f :
  (∀ b s, f (setJoined b s) = setJoined b (f s)) →
  ignores_joined (modify f).
Proof. intros Hf b s. unfold modify. simpl. by rewrite Hf. Qed.

Lemma ignores_bind {A B} (m : M A) (k : A → M B) :
  ignores_joined m → (∀ a, ignores_joined (k a)) →
  ignores_joined (bind m k).
Proof.
  intros Hm Hk b s. unfold bind. rewrite Hm.
  destruct (m s) as [[a|e] s1]; simpl; [apply Hk|done].
Qed.

Lemma ignores_try_catch {A} (m : M A) (handler : Exn → M A) :
  ignores_joined m → (∀ e, ignores_joined (handler e)) →
  ignores_joined (try_catch m handler).
Proof.
  intros Hm Hh b s. unfold try_catch. rewrite Hm.
  destruct (m s) as [[a|e] s1]; simpl; [done|apply Hh].
Qed.

Lemma ignores_forEach {A} (xs : list A) (f : A → M unit) :
  (∀ x, ignores_joined (f x)) → ignores_joined (forEach xs f).
Proof.
  intros Hf. induction xs as [|x xs IH]; simpl.
  - apply ignores_ret.
  - apply ignores_bind; [apply Hf|by intros _].
Qed.

Lemma ignores_getUserMedia h : ignores_joined (getUserMedia h).
Proof. intros b s. unfold getUserMedia. by destruct (mic h). Qed.
End IgnoresJoined.

Ltac ignore_joined :=
  repeat first
    [ apply ignores_ret
    | apply ignores_throw
    | apply ignores_getUserMedia
    | apply ignores_gets; reflexivity
    | apply ignores_modify; reflexivity
    | apply ignores_bind; [|intros ?]
    | apply ignores_try_catch; [|intros ?]
    | apply ignores_forEach; intros ?
    | match goal with
      | |- ignores_joined (match ?x with _ => _ end) => destruct x
      | |- ignores_joined (if ?x then _ else _) => destruct x
      end ].

Lemma ignores_createPeerConnection h id :
  ignores_joined (createPeerConnection h id).
Proof.
  unfold createPeerConnection.
  apply ignores_bind; [by intros b s|intros r].
  apply ignores_bind; [by intros b s|intros el].
  unfold update_audio, update_pc, console_error. ignore_joined.
Qed.

Lemma ignores_handleOffer h offer sender :
  ignores_joined (handleOffer h offer sender).
Proof.
  unfold handleOffer.
  apply ignores_try_catch; [|intros e; by apply ignores_modify].
  apply ignores_bind; [apply ignores_createPeerConnection|intros entry].
  unfold setRemoteDescription, createAnswer, setLocalDescription,
    update_pc, socket_emit.
  ignore_joined.
Qed.

(** An offer handled by a host that grants what is asked of it. *)
Lemma handleOffer_granted h offer sender s answer :
  is_Some (localStreamRef s) ∨ is_Some (mic h) →
  setRemoteDescription_ok h (length (pcHeap s)) = true →
  createAnswer_result h (length (pcHeap s)) = Some answer →
  setLocalDescription_ok h (length (pcHeap s)) = true →
  handleOffer h offer sender s
  = (Ok tt,
     push_emit (VOICE_ANSWER answer sender)
       (set_pcHeap (alter (set_pc_local answer) (length (pcHeap s)))
          (set_pcHeap (alter (set_pc_remote offer) (length (pcHeap s)))
             (createPeerConnection h sender s).2))).
Proof.
  intros Hmic Hrd Hca Hld.
  destruct (createPeerConnection_built h sender s Hmic) as (Hr & _).
  unfold handleOffer, try_catch, bind at 1.
  destruct (createPeerConnection h sender s) as [[e|x] s1];
    simpl in *; [|done].
  injection Hr as ->.
  unfold setRemoteDescription, createAnswer, setLocalDescription. simpl.
  rewrite Hrd, Hca, Hld. by run_js.
Qed.

(** C9.  [handleOffer] neither reads nor writes [joined].  In particular
    with [joined] false, when the host grants what is asked of it, the
    offer is answered: the microphone is acquired if no stream was held, an
    entry for the sender is registered, and the answer is emitted to the
    sender; [joined] stays false. *)
Theorem handleOffer_ignores_joined h offer sender :
  ignores_joined (handleOffer h offer sender)
  ∧ ∀ s answer,
      joined s = false →
      is_Some (localStreamRef s) ∨ is_Some (mic h) →
      setRemoteDescription_ok h (length (pcHeap s)) = true →
      createAnswer_result h (length (pcHeap s)) = Some answer →
      setLocalDescription_ok h (length (pcHeap s)) = true →
      let s' := (handleOffer h offer sender s).2 in
      (handleOffer h offer sender s).1 = Ok tt
      ∧ joined s' = false
      ∧ localStreamRef s' = Some (stream_after h s)
      ∧ trackHeap s' = tracks_after h s
      ∧ peersRef s' !! sender = Some (fresh_entry s)
      ∧ emitted s' = emitted s ++ [VOICE_ANSWER answer sender].
Proof.
  split; [apply ignores_handleOffer|].
  intros s answer Hj Hmic Hrd Hca Hld s'. subst s'.
  rewrite (handleOffer_granted h offer sender s answer) by done. simpl.
  destruct (createPeerConnection_allocates h sender s)
    as (_ & _ & Hj' & _ & He).
  destruct (createPeerConnection_built h sender s Hmic)
    as (_ & Hp & _ & Hl & Ht & _).
  split_and!; try congruence.
  rewrite Hp. apply lookup_insert_eq.
Qed.

Lemma handleOffer_ignores_joined_witness :
  joined answered_only = false
  ∧ peersRef answered_only !! "B" = Some (mkEntry 0 0 false)
  ∧ localStreamRef answered_only = Some [0]
  ∧ emitted answered_only = [VOICE_ANSWER "answer" "B"].
Proof.
  pose proof (proj2 (handleOffer_ignores_joined willing "sdp" "B")
                mounted "answer"
                eq_refl (or_intror (mk_is_Some _ _ eq_refl))
                eq_refl eq_refl eq_refl) as H.
  split_and!; apply H.
Defined.

(** ** The mute map and the table *)

Lemma in_sync_createPeerConnection h id s :
  in_sync s → in_sync (createPeerConnection h id s).2.
Proof.
  unfold in_sync. intros Hs.
  destruct (createPeerConnection_cases h s) as [[Hl Hmic]|Hok].
  - destruct (createPeerConnection_denied h id s Hl Hmic)
      as (_ & -> & -> & _). done.
  - destruct (createPeerConnection_built h id s Hok)
      as (_ & -> & -> & _). by rewrite !dom_insert_L, Hs.
Qed.

Lemma in_sync_cleanupPeer h id s :
  in_sync s → in_sync (cleanupPeer h id s).2.
Proof.
  unfold in_sync. intros Hs.
  destruct (cleanupPeer_frame h id s) as (_ & -> & -> & _).
  destruct (peersRef s !! id) eqn:He.
  - by rewrite !dom_delete_L, Hs.
  - by rewrite delete_id.
Qed.

Lemma in_sync_toggleRemoteMute id s :
  in_sync s → in_sync (toggleRemoteMute id s).2.
Proof.
  unfold in_sync. intros Hs. rewrite toggleRemoteMute_eq. simpl.
  destruct (peersRef s !! id); [|done]. simpl.
  by rewrite !dom_insert_L, Hs.
Qed.

Lemma in_sync_leaveVoice h s : in_sync s → in_sync (leaveVoice h s).2.
Proof.
  intros Hs. rewrite leaveVoice_eq. apply forEach_cleanupPeer.
  unfold in_sync, released in *. by destruct (localStreamRef s).
Qed.

(** C10.  Building a session, tearing one down, toggling a remote mute and
    leaving each keep the mute map on exactly the keys of the table; an
    entry a build returns is registered under [id] with [muted] false and
    mirrored as false; and the two have the same keys in every state the
    component reaches. *)
Theorem mute_map_in_sync h id s :
  in_sync s →
  in_sync (createPeerConnection h id s).2
  ∧ in_sync (cleanupPeer h id s).2
  ∧ in_sync (toggleRemoteMute id s).2
  ∧ in_sync (leaveVoice h s).2
  ∧ (∀ e, (createPeerConnection h id s).1 = Ok e →
       muted e = false
       ∧ peersRef (createPeerConnection h id s).2 !! id = Some e
       ∧ remoteMutedMap (createPeerConnection h id s).2 !! id = Some false)
  ∧ (∀ evs, in_sync (run evs mounted)).
Proof.
  intros Hs. split_and!.
  - by apply in_sync_createPeerConnection.
  - by apply in_sync_cleanupPeer.
  - by apply in_sync_toggleRemoteMute.
  - by apply in_sync_leaveVoice.
  - intros e He.
    destruct (createPeerConnection_cases h s) as [[Hl Hmic]|Hok].
    + destruct (createPeerConnection_denied h id s Hl Hmic) as (Hr & _).
      congruence.
    + destruct (createPeerConnection_built h id s Hok)
        as (Hr & -> & -> & _).
      rewrite Hr in He. injection He as <-.
      by rewrite !lookup_insert_eq.
  - intros evs. apply consistent_in_sync, run_consistent.
Qed.

Lemma mute_map_in_sync_witness :
  in_sync (createPeerConnection willing "C" offered).2
  ∧ in_sync (leaveVoice willing offered).2.
Proof.
  assert (Hs : in_sync offered) by (by vm_compute).
  pose proof (mute_map_in_sync willing "C" offered Hs) as H.
  split; apply H.
Defined.

(** ** One session per peer *)

(** A build returns a fresh entry, never one the table already holds. *)
Lemma createPeerConnection_rebuilds h id s e :
  consistent s → peersRef s !! id = Some e →
  is_Some (localStreamRef s) ∨ is_Some (mic h) →
  (createPeerConnection h id s).1 = Ok (fresh_entry s)
  ∧ fresh_entry s ≠ e
  ∧ length (pcHeap (createPeerConnection h id s).2) = S (length (pcHeap s)).
Proof.
  intros Hc He Hok.
  destruct (createPeerConnection_built h id s Hok) as (Hr & _).
  destruct (createPeerConnection_allocates h id s) as (Hlen & _).
  split_and!; [done| |done].
  intros <-. apply (sink_muted s Hc) in He. simpl in He.
  apply lookup_lt_Some in He. rewrite length_fmap in He. lia.
Qed.

(** C1, at the input on which the code departs from it.  "A" has joined and
    sent "B" an offer, so the table holds a session for "B" on connection 0
    and audio element 0.  A further membership tick leaves that session
    alone.  An offer from "B" does not: the entry for "B" is replaced by one
    on connection 1 and audio element 1, while connection 0 stays open and
    audio element 0 stays in the container, both out of reach of any later
    teardown. *)
Theorem offer_rebuilds_held_session :
  let tick := membershipEffect willing (Some "A")
                [mkUser (Some "A") "a"; mkUser (Some "B") "b"] in
  let s' := (handleOffer willing "sdp" "B" offered).2 in
  peersRef offered !! "B" = Some (mkEntry 0 0 false)
  ∧ tick offered = (Ok tt, offered)
  ∧ peersRef s' !! "B" = Some (mkEntry 1 1 false)
  ∧ length (pcHeap s') = 2
  ∧ pc_closed <$> pcHeap s' !! 0 = Some false
  ∧ audioContainerRef s' = Some [0; 1]
  ∧ (pc_closed <$> pcHeap (leaveVoice willing s').2) = [false; true]
  ∧ audioContainerRef (leaveVoice willing s').2 = Some [0].
Proof. by vm_compute. Qed.

(** * Further properties *)

(** ** The wiring of the table's connections *)

Lemma wired_view s s' :
  peersRef s' = peersRef s →
  wiring <$> pcHeap s' = wiring <$> pcHeap s →
  wired s → wired s'.
Proof. unfold wired. intros -> ->. done. Qed.

Lemma wired_mounted : wired mounted.
Proof. intros id e. simpl. by rewrite lookup_empty. Qed.

(** Two entries on one connection are one entry. *)
Lemma wired_owned s id1 id2 e1 e2 :
  wired s → peersRef s !! id1 = Some e1 → peersRef s !! id2 = Some e2 →
  pc e1 = pc e2 → id1 = id2.
Proof.
  intros Hw H1 H2 Heq. apply Hw in H1. apply Hw in H2.
  rewrite Heq in H1. congruence.
Qed.

Lemma fmap_foldl_alter_at {A B C} (p : A → B) (f : C → A → A) r
    (xs : list C) (hp : list A) :
  (∀ x a, p (f x a) = p a) →
  p <$> foldl (λ hp x, alter (f x) r hp) hp xs = p <$> hp.
Proof.
  intros Hp. revert hp. induction xs as [|x xs IH]; intros hp; simpl; [done|].
  rewrite IH. by apply fmap_alter_same.
Qed.

Lemma alter_fresh {A} (f : A → A) (l : list A) x :
  alter f (length l) (l ++ [x]) = l ++ [f x].
Proof.
  apply list_eq. intros i. destruct (decide (i = length l)) as [->|Hne].
  - rewrite list_lookup_alter_eq, !lookup_app_r by lia.
    by rewrite Nat.sub_diag.
  - rewrite list_lookup_alter_ne by done.
    destruct (decide (i < length l)).
    + by rewrite !lookup_app_l by lia.
    + rewrite !lookup_app_r by lia.
      destruct (i - length l) as [|k] eqn:Hk; [lia|done].
Qed.

(** The connection a build allocates, in both of its outcomes. *)
Lemma createPeerConnection_wiring h id s :
  wiring <$> pcHeap (createPeerConnection h id s).2
  = (wiring <$> pcHeap s) ++ [(false, id, Some (length (audioHeap s)))].
Proof.
  open_createPeerConnection.
  destruct (localStreamRef s) as [stream|] eqn:Hs; simpl.
  - rewrite forEach_update_pc. run_host.
    rewrite (fmap_foldl_alter_at wiring add_pc_sender) by done.
    by rewrite alter_fresh, fmap_app.
  - unfold getUserMedia. destruct (mic h); simpl.
    + rewrite forEach_update_pc. run_host.
      rewrite (fmap_foldl_alter_at wiring add_pc_sender) by done.
      by rewrite alter_fresh, fmap_app.
    + run_host. by rewrite alter_fresh, fmap_app.
Qed.

Lemma createPeerConnection_wired h id s :
  wired s → wired (createPeerConnection h id s).2.
Proof.
  intros Hw k e.
  rewrite createPeerConnection_wiring.
  destruct (createPeerConnection_cases h s) as [[Hl Hmic]|Hok].
  - destruct (createPeerConnection_denied h id s Hl Hmic) as (_ & -> & _).
    intros Hk. apply lookup_app_l_Some. by apply Hw.
  - destruct (createPeerConnection_built h id s Hok) as (_ & -> & _).
    rewrite lookup_insert. case_decide; subst.
    + intros [= <-]. simpl.
      rewrite lookup_app_r; rewrite length_fmap; [|lia].
      by rewrite Nat.sub_diag.
    + intros Hk. apply lookup_app_l_Some. by apply Hw.
Qed.

Lemma cleanupPeer_wired h id s : wired s → wired (cleanupPeer h id s).2.
Proof.
  intros Hw. destruct (peersRef s !! id) as [e|] eqn:He.
  - destruct (cleanupPeer_present h id s e He) as [children ->]. simpl.
    intros k e'. simpl. rewrite lookup_delete. case_decide; [done|].
    intros Hk. destruct (close_throws h (pc e)); [by apply Hw|].
    rewrite list_lookup_fmap, list_lookup_alter_ne.
    + rewrite <- list_lookup_fmap. by apply Hw.
    + intros Heq. by pose proof (wired_owned s id k e e' Hw He Hk Heq).
  - by rewrite cleanupPeer_absent.
Qed.

Lemma wired_keeps_wiring f s :
  (∀ p, wiring (f p) = wiring p) → ∀ r,
  wired s → wired (set_pcHeap (alter f r) s).
Proof.
  intros Hf r. apply wired_view; [done|]. simpl. by apply fmap_alter_same.
Qed.

Lemma preserves_wired_update_pc r f :
  (∀ p, wiring (f p) = wiring p) → preserves wired (update_pc r f).
Proof. intros Hf. apply preserves_modify. intros s. by apply wired_keeps_wiring. Qed.

Lemma preserves_wired_update_audio r f : preserves wired (update_audio r f).
Proof. apply preserves_modify. intros s. by apply wired_view. Qed.

Lemma preserves_wired_console_error msg : preserves wired (console_error msg).
Proof. apply preserves_modify. intros s. by apply wired_view. Qed.

Lemma preserves_wired_console_warn msg : preserves wired (console_warn msg).
Proof. apply preserves_modify. intros s. by apply wired_view. Qed.

Lemma preserves_wired_socket_emit e : preserves wired (socket_emit e).
Proof. apply preserves_modify. intros s. by apply wired_view. Qed.

Lemma preserves_wired_createOffer h r : preserves wired (createOffer h r).
Proof. unfold createOffer. preserve. Qed.

Lemma preserves_wired_createAnswer h r : preserves wired (createAnswer h r).
Proof. unfold createAnswer. preserve. Qed.

Lemma preserves_wired_setLocalDescription h r d :
  preserves wired (setLocalDescription h r d).
Proof.
  unfold setLocalDescription. destruct (setLocalDescription_ok h r).
  - by apply preserves_wired_update_pc.
  - apply preserves_throw.
Qed.

Lemma preserves_wired_setRemoteDescription h r d :
  preserves wired (setRemoteDescription h r d).
Proof.
  unfold setRemoteDescription. destruct (setRemoteDescription_ok h r).
  - by apply preserves_wired_update_pc.
  - apply preserves_throw.
Qed.

Lemma preserves_wired_addIceCandidate h r c :
  preserves wired (addIceCandidate h r c).
Proof.
  unfold addIceCandidate. destruct (addIceCandidate_ok h r).
  - by apply preserves_wired_update_pc.
  - apply preserves_throw.
Qed.

Lemma preserves_wired_createPeerConnection h id :
  preserves wired (createPeerConnection h id).
Proof. intros s. apply createPeerConnection_wired. Qed.

Lemma preserves_wired_cleanupPeer h id : preserves wired (cleanupPeer h id).
Proof. intros s. apply cleanupPeer_wired. Qed.

#[local] Hint Resolve preserves_wired_update_audio
  preserves_wired_console_error preserves_wired_console_warn
  preserves_wired_socket_emit preserves_wired_createOffer
  preserves_wired_createAnswer preserves_wired_setLocalDescription
  preserves_wired_setRemoteDescription preserves_wired_addIceCandidate
  preserves_wired_createPeerConnection preserves_wired_cleanupPeer : preserve.

Lemma preserves_wired_handle h e : preserves wired (handle h e).
Proof.
  destruct e; simpl.
  - intros s. rewrite joinVoice_eq. simpl. destruct (joined s); [done|].
    destruct (mic h); by apply wired_view.
  - intros s Hw. rewrite leaveVoice_eq.
    apply (preserves_forEach wired); [intros id; auto with preserve|].
    revert Hw. apply wired_view; unfold released;
      by destruct (localStreamRef s).
  - intros s. rewrite toggleLocalMute_eq. simpl.
    destruct (localStreamRef s); [|done]. by apply wired_view.
  - intros s Hw. rewrite toggleRemoteMute_eq. simpl.
    destruct (peersRef s !! socketId0) as [e|] eqn:He; [|done].
    intros k e'. simpl. rewrite lookup_insert. case_decide; subst.
    + intros [= <-]. simpl. by apply Hw.
    + apply Hw.
  - unfold handleOffer. preserve.
  - unfold handleAnswer. preserve.
  - unfold handleIce. preserve.
  - unfold membershipEffect. preserve.
  - unfold handleUserLeft. preserve.
  - unfold onicecandidate. preserve.
  - unfold ontrack. preserve.
Qed.

Lemma run_wired evs s : wired s → wired (run evs s).
Proof.
  revert s. induction evs as [|[h e] evs IH]; intros s Hs; simpl; [done|].
  apply IH. by apply preserves_wired_handle.
Qed.

(** X1.  In every state the component reaches, each entry of the table is
    on a connection that exists and is not closed, whose [onicecandidate]
    handler addresses the entry's own key and whose [ontrack] handler feeds
    the entry's own audio element; no other entry is on that connection. *)
Theorem reachable_entries_wired evs id e :
  let s := run evs mounted in
  peersRef s !! id = Some e →
  (∃ p, pcHeap s !! pc e = Some p
        ∧ pc_closed p = false
        ∧ pc_onicecandidate p = id
        ∧ pc_ontrack p = Some (audioEl e))
  ∧ (∀ id' e', peersRef s !! id' = Some e' → pc e' = pc e → id' = id).
Proof.
  intros s He. pose proof (run_wired evs mounted wired_mounted) as Hw.
  fold s in Hw. split.
  - pose proof (Hw id e He) as Hp. rewrite list_lookup_fmap in Hp.
    destruct (pcHeap s !! pc e) as [p|]; [|done].
    injection Hp as H1 H2 H3. eauto.
  - intros id' e' He' Heq. by eapply (wired_owned s id' id e' e).
Qed.

Lemma reachable_entries_wired_witness :
  ∃ p, pcHeap offered !! 0 = Some p
       ∧ pc_closed p = false
       ∧ pc_onicecandidate p = "B"
       ∧ pc_ontrack p = Some 0.
Proof.
  apply (reachable_entries_wired
           [(willing, JoinVoice);
            (willing, UsersChanged (Some "A")
                        [mkUser (Some "A") "a"; mkUser (Some "B") "b"])]
           "B" (mkEntry 0 0 false)).
  reflexivity.
Defined.

(** X2.  A candidate found on the connection of the entry for [id] is
    emitted once, addressed to [id], and nothing else changes; the end of
    gathering (no candidate) emits nothing. *)
Theorem onicecandidate_addresses_peer s id e c :
  wired s → peersRef s !! id = Some e →
  onicecandidate (pc e) (Some c) s
  = (Ok tt, push_emit (VOICE_ICE_CANDIDATE c id) s)
  ∧ onicecandidate (pc e) None s = (Ok tt, s).
Proof.
  intros Hw He. pose proof (Hw id e He) as Hp.
  rewrite list_lookup_fmap in Hp.
  unfold onicecandidate. run_js.
  destruct (pcHeap s !! pc e) as [p|]; [|done].
  injection Hp as _ -> _. done.
Qed.

Lemma onicecandidate_addresses_peer_witness :
  onicecandidate 0 (Some "candidate") offered
  = (Ok tt, push_emit (VOICE_ICE_CANDIDATE "candidate" "B") offered).
Proof.
  apply (onicecandidate_addresses_peer offered "B" (mkEntry 0 0 false)
           "candidate" (run_wired _ _ wired_mounted) eq_refl).
Defined.

(** X3.  A remote stream arriving on the connection of the entry for [id]
    becomes the source of that entry's audio element and changes nothing
    else: the element keeps the entry's mute flag, so a peer muted before
    its audio arrives stays muted. *)
Theorem ontrack_feeds_own_sink s id e stream0 :
  wired s → consistent s → peersRef s !! id = Some e →
  let s' := (ontrack (pc e) stream0 s).2 in
  ontrack (pc e) stream0 s
  = (Ok tt, set_audioHeap (alter (set_srcObject stream0) (audioEl e)) s)
  ∧ srcObject <$> audioHeap s' !! audioEl e = Some stream0
  ∧ el_muted <$> audioHeap s' !! audioEl e = Some (muted e).
Proof.
  intros Hw Hc He s'. subst s'. pose proof (Hw id e He) as Hp.
  rewrite list_lookup_fmap in Hp.
  pose proof (sink_muted s Hc id e He) as Hm.
  rewrite list_lookup_fmap in Hm.
  unfold ontrack. run_js.
  destruct (pcHeap s !! pc e) as [p|]; [|done].
  injection Hp as _ _ ->. run_host.
  rewrite list_lookup_alter_eq.
  by destruct (audioHeap s !! audioEl e).
Qed.

Lemma ontrack_feeds_own_sink_witness :
  srcObject <$> audioHeap (ontrack 0 (Some 7) offered).2 !! 0 = Some (Some 7)
  ∧ el_muted <$> audioHeap (ontrack 0 (Some 7) offered).2 !! 0 = Some false.
Proof.
  pose proof (ontrack_feeds_own_sink offered "B" (mkEntry 0 0 false) (Some 7)
                (run_wired _ _ wired_mounted) (run_consistent _) eq_refl)
    as H.
  split; apply H.
Defined.

(** ** Candidates from the relay *)

(** X4.  [handleIce] never raises and never changes the table.  With no
    entry for the sender the candidate is dropped and nothing changes.
    With an entry, the candidate is added to the entry's connection when
    the host accepts it; when the host rejects it, one warning is logged
    and nothing else changes. *)
Theorem handleIce_drops_stale h candidate sender s :
  let s' := (handleIce h candidate sender s).2 in
  (handleIce h candidate sender s).1 = Ok tt
  ∧ peersRef s' = peersRef s
  ∧ emitted s' = emitted s
  ∧ (peersRef s !! sender = None → s' = s)
  ∧ (∀ e, peersRef s !! sender = Some e →
       s' = if addIceCandidate_ok h (pc e)
            then set_pcHeap (alter (add_pc_candidate candidate) (pc e)) s
            else push_log (ConsoleWarn "Failed to add ICE candidate") s).
Proof.
  unfold handleIce, addIceCandidate. run_js.
  destruct (peersRef s !! sender) as [e|] eqn:He; simpl.
  - destruct (addIceCandidate_ok h (pc e)) eqn:Hok; run_host;
      split_and!; try done; intros e' [= <-]; by rewrite Hok.
  - split_and!; done.
Qed.

Lemma handleIce_drops_stale_witness :
  (handleIce willing "candidate" "X" offered).2 = offered
  ∧ (handleIce willing "candidate" "B" offered).2
    = set_pcHeap (alter (add_pc_candidate "candidate") 0) offered.
Proof.
  split.
  - apply (handleIce_drops_stale willing "candidate" "X" offered).
    reflexivity.
  - apply (handleIce_drops_stale willing "candidate" "B" offered
             : _ ∧ _ ∧ _ ∧ _ ∧ ∀ e, _ → _ = _) with (e := mkEntry 0 0 false).
    reflexivity.
Defined.

(** ** What a teardown releases *)

Lemma filter_ne_notin (el : nat) (children : list nat) :
  el ∉ children → filter (λ c, c ≠ el) children = children.
Proof.
  induction children as [|c cs IH]; intros Hnot; [done|].
  apply not_elem_of_cons in Hnot as [Hne Hnot].
  rewrite filter_cons_True by done. by rewrite IH.
Qed.

(** X5.  Tearing down the entry [e] of [id] clears the source of its audio
    element, removes the entry and its mirror, and leaves the local stream,
    the flags and the relay alone, whatever the host does.  The connection
    is closed unless [close()] raises, and the element leaves the container
    unless [removeChild] raises: a [close()] that raises does not keep the
    element from being detached nor the entry from being removed. *)
Theorem cleanupPeer_releases h id s e :
  peersRef s !! id = Some e →
  cleanupPeer h id s
  = (Ok tt,
     mkVoiceChat (joined s) (localMuted s) (delete id (remoteMutedMap s))
       (localStreamRef s) (delete id (peersRef s))
       (if removeChild_throws h (audioEl e) then audioContainerRef s
        else filter (λ c, c ≠ audioEl e) <$> audioContainerRef s)
       (trackHeap s)
       (if close_throws h (pc e) then pcHeap s
        else alter set_pc_closed (pc e) (pcHeap s))
       (alter (set_srcObject None) (audioEl e) (audioHeap s))
       (emitted s) (console s)).
Proof.
  intros H. unfold cleanupPeer, bind at 1, gets at 1. rewrite H.
  unfold pc_close, parentNode, removeChild. run_js.
  destruct (close_throws h (pc e)); run_host;
    destruct (audioContainerRef s) as [children|] eqn:Hc; simpl;
    try (destruct (bool_decide_reflect (audioEl e ∈ children)); simpl);
    destruct (removeChild_throws h (audioEl e)); simpl;
    unfold setRemoteMutedMap, set_peersRef, set_container, set_audioHeap,
      set_pcHeap; simpl; rewrite ?Hc; simpl; try done;
    by rewrite filter_ne_notin.
Qed.

Lemma cleanupPeer_releases_witness :
  pc_closed <$> pcHeap (cleanupPeer willing "B" offered).2 !! 0 = Some true
  ∧ audioContainerRef (cleanupPeer willing "B" offered).2 = Some [].
Proof.
  rewrite (cleanupPeer_releases willing "B" offered (mkEntry 0 0 false) eq_refl).
  split; reflexivity.
Defined.

(** X6.  [handleUserLeft] never raises.  A payload without a user or
    without a socket id changes nothing; otherwise exactly the entry of
    that socket id leaves the table and the mute map, whether or not the
    local user has joined, and nothing is emitted. *)
Theorem handleUserLeft_removes_that_peer h user s :
  let s' := (handleUserLeft h user s).2 in
  (handleUserLeft h user s).1 = Ok tt
  ∧ (departed user = None → s' = s)
  ∧ (∀ id, departed user = Some id →
       peersRef s' = delete id (peersRef s)
       ∧ (in_sync s → remoteMutedMap s' = delete id (remoteMutedMap s)))
  ∧ joined s' = joined s
  ∧ localStreamRef s' = localStreamRef s
  ∧ trackHeap s' = trackHeap s
  ∧ emitted s' = emitted s.
Proof.
  unfold handleUserLeft, departed.
  destruct user as [u|]; [|by split_and!].
  destruct (socketId u) as [id|] eqn:Hid; simpl; [|by split_and!].
  destruct (String.eqb id ""); simpl; [by split_and!|].
  destruct (cleanupPeer_frame h id s)
    as (Hr & Hp & Hm & _ & Hj & _ & Hl & Ht & He & _).
  split_and!; try done.
  intros k [= <-]. split; [done|]. intros Hs. rewrite Hm.
  destruct (peersRef s !! id) eqn:Hk; [done|].
  rewrite delete_id; [done|].
  apply not_elem_of_dom. rewrite Hs. by apply not_elem_of_dom.
Qed.

Lemma handleUserLeft_removes_that_peer_witness :
  peersRef (handleUserLeft willing (Some (mkUser (Some "B") "b")) offered).2
  = delete "B" (peersRef offered)
  ∧ (handleUserLeft willing (Some (mkUser None "b")) offered).2 = offered.
Proof.
  split.
  - apply (handleUserLeft_removes_that_peer willing
             (Some (mkUser (Some "B") "b")) offered
           : _ ∧ _ ∧ (∀ id, _ → _) ∧ _) with (id := "B").
    reflexivity.
  - apply (handleUserLeft_removes_that_peer willing
             (Some (mkUser None "b")) offered).
    reflexivity.
Defined.

(** ** What leaving closes *)

Lemma closes_refl hp : closes hp hp.
Proof. intros r. by left. Qed.

Lemma set_pc_closed_idemp p : set_pc_closed (set_pc_closed p) = set_pc_closed p.
Proof. done. Qed.

Lemma closes_trans hp1 hp2 hp3 : closes hp1 hp2 → closes hp2 hp3 → closes hp1 hp3.
Proof.
  intros H12 H23 r. destruct (H12 r) as [E1|E1], (H23 r) as [E2|E2];
    rewrite E2, E1; auto.
  right. destruct (hp1 !! r); simpl; [|done]. by rewrite set_pc_closed_idemp.
Qed.

Lemma closes_closed hp hp' r :
  closes hp hp' → set_pc_closed <$> hp' !! r = set_pc_closed <$> hp !! r.
Proof.
  intros H. destruct (H r) as [->| ->]; [done|].
  by destruct (hp !! r).
Qed.

Lemma cleanupPeer_closes h id s : closes (pcHeap s) (pcHeap (cleanupPeer h id s).2).
Proof.
  destruct (peersRef s !! id) as [e|] eqn:He.
  - destruct (cleanupPeer_present h id s e He) as [children ->]. simpl.
    destruct (close_throws h (pc e)); [apply closes_refl|].
    intros r. destruct (decide (pc e = r)) as [<-|Hne].
    + right. apply list_lookup_alter_eq.
    + left. by apply list_lookup_alter_ne.
  - rewrite cleanupPeer_absent by done. apply closes_refl.
Qed.

Lemma forEach_cleanupPeer_closes h ids s :
  let s' := (forEach ids (cleanupPeer h) s).2 in
  closes (pcHeap s) (pcHeap s')
  ∧ ((∀ r, close_throws h r = false) →
     ∀ id e, id ∈ ids → peersRef s !! id = Some e →
       pcHeap s' !! pc e = set_pc_closed <$> pcHeap s !! pc e).
Proof.
  revert s. induction ids as [|k ids IH]; intros s; simpl.
  - split; [apply closes_refl|]. intros _ id e Hin. by apply elem_of_nil in Hin.
  - unfold bind.
    pose proof (cleanupPeer_closes h k s) as Hcl.
    destruct (cleanupPeer_frame h k s) as (Hr & Hp & _).
    pose proof (λ e, cleanupPeer_present h k s e) as Hrel.
    destruct (cleanupPeer h k s) as [[[]|x] s1]; simpl in *; [|done].
    destruct (IH s1) as [Hcl' Hall]. split.
    + by eapply closes_trans.
    + intros Hh id e Hin He. destruct (decide (id = k)) as [->|Hne].
      * destruct (Hrel e He) as [children Heq]. injection Heq as ->.
        simpl in *.
        rewrite Hh in *.
        destruct (Hcl' (pc e)) as [-> | ->];
          rewrite list_lookup_alter_eq; [done|].
        by destruct (pcHeap s !! pc e).
      * apply elem_of_cons in Hin as [?|Hin]; [done|].
        rewrite (Hall Hh id e Hin); [by apply closes_closed|].
        rewrite Hp. by rewrite lookup_delete_ne.
Qed.

(** X7.  When [close()] does not raise, [leaveVoice] closes the connection
    of every entry the table held; no connection is changed other than by
    being closed, and nothing is emitted: the peers are not told. *)
Theorem leaveVoice_closes_connections h s :
  (∀ r, close_throws h r = false) →
  let s' := (leaveVoice h s).2 in
  (∀ id e, peersRef s !! id = Some e →
     pcHeap s' !! pc e = set_pc_closed <$> pcHeap s !! pc e)
  ∧ closes (pcHeap s) (pcHeap s')
  ∧ emitted s' = emitted s.
Proof.
  intros Hh s'. subst s'.
  destruct (leaveVoice_facts h s) as (_ & _ & _ & _ & _ & _ & He & _).
  rewrite leaveVoice_eq in *.
  destruct (forEach_cleanupPeer_closes h (keys (peersRef s)) (released s))
    as [Hcl Hall].
  assert (Hsame : peersRef (released s) = peersRef s
                  ∧ pcHeap (released s) = pcHeap s).
  { unfold released. by destruct (localStreamRef s). }
  destruct Hsame as [Hp Hpc]. rewrite Hpc in *.
  split_and!; [|done|done].
  intros id e Hid. apply (Hall Hh id e).
  - apply elem_of_keys. eauto.
  - by rewrite Hp.
Qed.

Lemma leaveVoice_closes_connections_witness :
  pc_closed <$> pcHeap (leaveVoice willing offered).2 !! 0 = Some true.
Proof.
  pose proof (proj1 (leaveVoice_closes_connections willing offered
                       (λ _, eq_refl)) "B" (mkEntry 0 0 false) eq_refl) as E.
  cbn [pc] in E. rewrite E. reflexivity.
Defined.

(** ** Offers that fail *)

Lemma try_catch_logged (m : M unit) msg s :
  (try_catch m (λ _, console_error msg) s).1 = Ok tt.
Proof. unfold try_catch. by destruct (m s) as [[[]|x] s1]. Qed.

Lemma handleOffer_denied h offer sender s :
  localStreamRef s = None → mic h = None →
  handleOffer h offer sender s
  = (Ok tt, push_log (ConsoleError "Failed handling offer")
              (createPeerConnection h sender s).2).
Proof.
  intros Hl Hmic.
  destruct (createPeerConnection_denied h sender s Hl Hmic) as (Hr & _).
  unfold handleOffer, try_catch, bind at 1.
  by destruct (createPeerConnection h sender s) as [[e|x] s1].
Qed.

Lemma handleOffer_failed h offer sender s :
  is_Some (localStreamRef s) ∨ is_Some (mic h) →
  setRemoteDescription_ok h (length (pcHeap s)) = false
  ∨ createAnswer_result h (length (pcHeap s)) = None
  ∨ setLocalDescription_ok h (length (pcHeap s)) = false →
  ∃ f, handleOffer h offer sender s
       = (Ok tt, push_log (ConsoleError "Failed handling offer")
                   (set_pcHeap f (createPeerConnection h sender s).2)).
Proof.
  intros Hok Hfail.
  destruct (createPeerConnection_built h sender s Hok) as (Hr & _).
  unfold handleOffer, try_catch, bind at 1.
  destruct (createPeerConnection h sender s) as [[e|x] s1];
    simpl in *; [|done].
  injection Hr as ->.
  unfold setRemoteDescription, createAnswer, setLocalDescription. simpl.
  destruct (setRemoteDescription_ok h (length (pcHeap s)));
    destruct (createAnswer_result h (length (pcHeap s)));
    destruct (setLocalDescription_ok h (length (pcHeap s)));
    try (by destruct Hfail as [?|[?|?]]);
    run_js; run_host; try (by eexists).
  all: exists id; by destruct s1.
Qed.

(** X8.  [handleOffer] never raises: whatever fails is logged and the offer
    dropped.  When the microphone is refused nothing is registered and
    nothing is emitted.  When the build succeeds but a negotiation step
    fails, nothing is emitted either, yet the entry built for the sender
    stays in the table: this path has no teardown. *)
Theorem handleOffer_contains_failures h offer sender s :
  let s' := (handleOffer h offer sender s).2 in
  let r := length (pcHeap s) in
  (handleOffer h offer sender s).1 = Ok tt
  ∧ (localStreamRef s = None → mic h = None →
       peersRef s' = peersRef s
       ∧ emitted s' = emitted s
       ∧ console s'
         = console s ++ [ConsoleError "Microphone access denied";
                         ConsoleError "Failed handling offer"])
  ∧ (is_Some (localStreamRef s) ∨ is_Some (mic h) →
     setRemoteDescription_ok h r = false
     ∨ createAnswer_result h r = None
     ∨ setLocalDescription_ok h r = false →
       peersRef s' !! sender = Some (fresh_entry s)
       ∧ emitted s' = emitted s
       ∧ console s' = console s ++ [ConsoleError "Failed handling offer"]).
Proof.
  intros s' r. subst s' r. split; [apply try_catch_logged|].
  destruct (createPeerConnection_allocates h sender s)
    as (_ & _ & _ & _ & He).
  split.
  - intros Hl Hmic. rewrite handleOffer_denied by done. simpl.
    destruct (createPeerConnection_denied h sender s Hl Hmic)
      as (_ & Hp & _ & _ & _ & Hcon).
    rewrite Hp, He, Hcon. by rewrite <- app_assoc.
  - intros Hok Hfail.
    destruct (handleOffer_failed h offer sender s Hok Hfail) as [f ->].
    destruct (createPeerConnection_built h sender s Hok)
      as (_ & Hp & _ & _ & _ & Hcon).
    simpl. by rewrite Hp, He, Hcon, lookup_insert_eq.
Qed.

Lemma handleOffer_contains_failures_witness :
  peersRef (handleOffer refusing "sdp" "B" mounted).2 = peersRef mounted
  ∧ peersRef (handleOffer rejecting "sdp" "B" mounted).2 !! "B"
    = Some (mkEntry 0 0 false)
  ∧ emitted (handleOffer rejecting "sdp" "B" mounted).2 = [].
Proof.
  pose proof (handleOffer_contains_failures refusing "sdp" "B" mounted)
    as (_ & H1 & _).
  pose proof (handleOffer_contains_failures rejecting "sdp" "B" mounted)
    as (_ & _ & H2).
  specialize (H1 eq_refl eq_refl).
  specialize (H2 (or_intror (mk_is_Some _ _ eq_refl)) (or_introl eq_refl)).
  split_and!; [apply H1|apply H2|apply H2].
Defined.

(** ** What a build makes *)

Lemma foldl_add_pc_sender (l : list RTCPeerConnection) p (xs : list nat) :
  foldl (λ hp x, alter (add_pc_sender x) (length l) hp) (l ++ [p]) xs
  = l ++ [mkPc (pc_closed p) (pc_onicecandidate p) (pc_ontrack p)
            (pc_senders p ++ xs) (pc_localDescription p)
            (pc_remoteDescription p) (pc_remoteCandidates p)].
Proof.
  revert p. induction xs as [|x xs IH]; intros p; simpl.
  - rewrite app_nil_r. by destruct p.
  - rewrite alter_fresh, IH. simpl. by rewrite <- app_assoc.
Qed.

(** X9.  A build that succeeds adds exactly one connection and one audio
    element.  The connection is open, addresses [id], feeds the new
    element, has the tracks of the held stream as its senders, in order,
    and no description yet.  The element plays automatically and inline,
    without controls, unmuted, and is the last child of the container. *)
Theorem createPeerConnection_makes h id s :
  is_Some (localStreamRef s) ∨ is_Some (mic h) →
  let s' := (createPeerConnection h id s).2 in
  pcHeap s'
  = pcHeap s ++ [mkPc false id (Some (length (audioHeap s)))
                   (stream_after h s) None None []]
  ∧ audioHeap s' = audioHeap s ++ [mkAudio true true false false None]
  ∧ audioContainerRef s'
    = (λ children, children ++ [length (audioHeap s)])
        <$> audioContainerRef s.
Proof.
  intros Hok. open_createPeerConnection. unfold stream_after.
  destruct (localStreamRef s) as [stream|] eqn:Hs; simpl.
  - rewrite forEach_update_pc. run_host.
    rewrite Hs, !alter_fresh, foldl_add_pc_sender. done.
  - destruct Hok as [[? ?]|[n Hn]]; [done|].
    unfold getUserMedia. rewrite Hn. simpl.
    rewrite forEach_update_pc. run_host.
    rewrite !alter_fresh, foldl_add_pc_sender. done.
Qed.

Lemma createPeerConnection_makes_witness :
  pcHeap (createPeerConnection willing "C" offered).2 !! 1
  = Some (mkPc false "C" (Some 1) [0] None None []).
Proof.
  pose proof (createPeerConnection_makes willing "C" offered
                (or_introl (mk_is_Some _ _ eq_refl))) as (H & _).
  rewrite H. reflexivity.
Defined.

(** X10.  While a stream is held a build does not ask for the microphone:
    it returns an entry whatever the host would answer, and the stream and
    the tracks are as before. *)
Theorem createPeerConnection_reuses_stream h h' id s stream :
  localStreamRef s = Some stream →
  createPeerConnection h id s = createPeerConnection h' id s
  ∧ (createPeerConnection h id s).1 = Ok (fresh_entry s)
  ∧ localStreamRef (createPeerConnection h id s).2 = Some stream
  ∧ trackHeap (createPeerConnection h id s).2 = trackHeap s.
Proof.
  intros Hs.
  destruct (createPeerConnection_built h id s) as (Hr & _ & _ & Hl & Ht & _).
  { left. by rewrite Hs. }
  unfold stream_after in Hl. unfold tracks_after in Ht.
  rewrite Hs in Hl, Ht. split_and!; try done.
  open_createPeerConnection. by rewrite Hs.
Qed.

Lemma createPeerConnection_reuses_stream_witness :
  createPeerConnection refusing "C" offered
  = createPeerConnection willing "C" offered.
Proof.
  apply (createPeerConnection_reuses_stream refusing willing "C" offered [0]).
  reflexivity.
Defined.

(** ** Toggling twice *)

Lemma flip_enabled_twice tr : flip_enabled (flip_enabled tr) = tr.
Proof. destruct tr as [k en r]. unfold flip_enabled. simpl. by rewrite negb_involutive. Qed.

Lemma foldl_alter_twice {A} (f : A → A) (xs : list nat) (hp : list A) :
  NoDup xs → (∀ a, f (f a) = a) →
  foldl (λ hp t, alter f t hp) (foldl (λ hp t, alter f t hp) hp xs) xs = hp.
Proof.
  intros Hnd Hf. apply list_eq. intros t.
  destruct (decide (t ∈ xs)) as [Hin|Hnot].
  - rewrite !lookup_foldl_alter_once by done.
    destruct (hp !! t); simpl; [|done]. by rewrite Hf.
  - by rewrite !lookup_foldl_alter_notin.
Qed.

(** X11.  In a consistent state two local mute toggles in a row undo each
    other: the flag and every track are as before. *)
Theorem toggleLocalMute_twice s :
  consistent s → (toggleLocalMute (toggleLocalMute s).2).2 = s.
Proof.
  intros Hc.
  pose proof (preserves_toggleLocalMute s Hc) as Hc'.
  rewrite (toggleLocalMute_eq (toggleLocalMute s).2).
  revert Hc'. rewrite toggleLocalMute_eq. simpl.
  destruct (localStreamRef s) as [stream|] eqn:Hs; simpl; rewrite Hs; [|done].
  intros Hc'. rewrite (audio_of_held s stream Hc Hs) in Hc' |- *.
  rewrite (audio_of_held _ stream Hc') by (simpl; done).
  destruct (stream_tracks s Hc stream Hs) as [Hnd _].
  unfold setLocalMuted, set_trackHeap. simpl.
  rewrite foldl_alter_twice by (done || apply flip_enabled_twice).
  rewrite negb_involutive. by destruct s.
Qed.

Lemma toggleLocalMute_twice_witness :
  (toggleLocalMute (toggleLocalMute offered).2).2 = offered.
Proof. apply (toggleLocalMute_twice offered (run_consistent _)). Defined.

(** X12.  In a consistent state two remote mute toggles of the same peer in
    a row undo each other: the entry, its audio element and the mute map
    are as before. *)
Theorem toggleRemoteMute_twice id s :
  consistent s → (toggleRemoteMute id (toggleRemoteMute id s).2).2 = s.
Proof.
  intros Hc.
  assert (Hfirst : (toggleRemoteMute id s).2
                   = match peersRef s !! id with
                     | None => s
                     | Some e =>
                         setRemoteMutedMap (insert id (negb (muted e)))
                           (set_audioHeap
                              (alter (set_el_muted (negb (muted e)))
                                 (audioEl e))
                              (set_peersRef
                                 (insert id (set_muted (negb (muted e)) e))
                                 s))
                     end).
  { rewrite toggleRemoteMute_eq. simpl.
    destruct (peersRef s !! id) as [e|] eqn:He; [|done].
    unfold next_muted. by rewrite (mute_mirror s Hc), He. }
  rewrite Hfirst. clear Hfirst.
  destruct (peersRef s !! id) as [e|] eqn:He.
  - rewrite toggleRemoteMute_eq. unfold next_muted. simpl.
    rewrite !lookup_insert_eq. simpl. rewrite negb_involutive.
    pose proof (sink_muted s Hc id e He) as Hm.
    rewrite list_lookup_fmap in Hm.
    unfold setRemoteMutedMap, set_audioHeap, set_peersRef. simpl.
    rewrite !insert_insert_eq.
    rewrite (insert_id (peersRef s) id) by (by destruct e).
    rewrite (insert_id (remoteMutedMap s) id (muted e))
      by (by rewrite (mute_mirror s Hc), He).
    rewrite list_alter_alter_eq.
    assert (Hel : alter (set_el_muted (muted e)
                         ∘ set_el_muted (negb (muted e)))
                    (audioEl e) (audioHeap s) = audioHeap s).
    { apply list_eq. intros r. destruct (decide (audioEl e = r)) as [<-|Hne].
      - rewrite list_lookup_alter_eq.
        destruct (audioHeap s !! audioEl e) as [[a p c m o]|]; [|done].
        simpl in *. by injection Hm as ->.
      - by rewrite list_lookup_alter_ne. }
    rewrite Hel. by destruct s.
  - rewrite toggleRemoteMute_eq. simpl. by rewrite He.
Qed.

Lemma toggleRemoteMute_twice_witness :
  (toggleRemoteMute "B" (toggleRemoteMute "B" offered).2).2 = offered.
Proof. apply (toggleRemoteMute_twice "B" offered (run_consistent _)). Defined.

(** ** Joining over a stream that is already held *)

(** X13.  [joinVoice] asks for a new stream even when one is held.  When
    not joined with a stream held (an offer was answered), a granted join
    holds the new stream in place of the old one without stopping it, and
    a later [leaveVoice] stops only the new one: every track of the old
    stream exists and is as it was. *)
Theorem joinVoice_orphans_held_stream h h' s old n :
  consistent s → joined s = false → localStreamRef s = Some old →
  mic h = Some n →
  let s1 := (joinVoice h s).2 in
  let s2 := (leaveVoice h' s1).2 in
  localStreamRef s1 = Some (seq (length (trackHeap s)) n)
  ∧ Forall (λ t, (t ∉ seq (length (trackHeap s)) n)
                 ∧ is_Some (trackHeap s !! t)
                 ∧ trackHeap s1 !! t = trackHeap s !! t
                 ∧ trackHeap s2 !! t = trackHeap s !! t) old.
Proof.
  intros Hc Hj Hs Hmic s1 s2.
  destruct (leaveVoice_facts h' s1) as (_ & _ & _ & _ & Ht & _).
  subst s2. rewrite Ht. subst s1. rewrite joinVoice_eq. simpl.
  rewrite Hj, Hmic. split; [done|].
  destruct (stream_tracks s Hc old Hs) as [_ Hall].
  rewrite Forall_forall in *. intros t Hin. specialize (Hall t Hin).
  rewrite list_lookup_fmap in Hall.
  destruct (trackHeap s !! t) as [tr|] eqn:Htr; [|done].
  pose proof (lookup_lt_Some _ _ _ Htr) as Hlt.
  assert (Hnot : t ∉ seq (length (trackHeap s)) n).
  { rewrite elem_of_seq. lia. }
  split_and!; [done|eauto| |].
  - simpl. by apply lookup_app_l_Some.
  - unfold released, granted. simpl.
    rewrite lookup_foldl_alter_notin by done.
    by apply lookup_app_l_Some.
Qed.

Lemma joinVoice_orphans_held_stream_witness :
  localStreamRef (joinVoice willing answered_only).2 = Some [1]
  ∧ readyState
      <$> trackHeap
            (leaveVoice willing (joinVoice willing answered_only).2).2 !! 0
    = Some Live.
Proof.
  pose proof (joinVoice_orphans_held_stream willing willing answered_only
                [0] 1 (run_consistent _) eq_refl eq_refl eq_refl) as [H1 H2].
  split; [exact H1|].
  apply Forall_inv in H2 as (_ & _ & _ & ->). reflexivity.
Defined.

(** ** What holds in every state the component reaches *)

(** X14.  In every state the component reaches, the mute map, the entry
    and the entry's audio element agree for each peer of the table: the
    label shown for a peer says whether its audio is muted; and no two
    peers share an audio element. *)
Theorem reachable_mute_flags_agree evs id e :
  let s := run evs mounted in
  peersRef s !! id = Some e →
  remoteMutedMap s !! id = Some (muted e)
  ∧ el_muted <$> audioHeap s !! audioEl e = Some (muted e)
  ∧ (∀ id' e', peersRef s !! id' = Some e' → audioEl e' = audioEl e →
       id' = id).
Proof.
  intros s He. pose proof (run_consistent evs) as Hc. fold s in Hc.
  split_and!.
  - by rewrite (mute_mirror s Hc), He.
  - rewrite <- list_lookup_fmap. by eapply (sink_muted s Hc).
  - intros id' e' He' Heq. by eapply (sink_owned s Hc).
Qed.

Lemma reachable_mute_flags_agree_witness :
  remoteMutedMap (toggleRemoteMute "B" offered).2 !! "B" = Some true
  ∧ el_muted <$> audioHeap (toggleRemoteMute "B" offered).2 !! 0 = Some true.
Proof.
  pose proof (reachable_mute_flags_agree
                [(willing, JoinVoice);
                 (willing, UsersChanged (Some "A")
                             [mkUser (Some "A") "a"; mkUser (Some "B") "b"]);
                 (willing, ToggleRemoteMute "B")]
                "B" (mkEntry 0 0 true) eq_refl) as (H1 & H2 & _).
  split; [exact H1|exact H2].
Defined.

(** X15.  In every state the component reaches with [joined] true, a
    stream is held, and the tracks of a held stream are distinct audio
    tracks that exist. *)
Theorem reachable_joined_holds_stream evs :
  let s := run evs mounted in
  (joined s = true → is_Some (localStreamRef s))
  ∧ (∀ stream, localStreamRef s = Some stream →
       NoDup stream
       ∧ Forall (λ t, kind <$> trackHeap s !! t = Some Audio) stream).
Proof.
  intros s. pose proof (run_consistent evs) as Hc. fold s in Hc.
  split; [apply Hc|].
  intros stream Hs. destruct (stream_tracks s Hc stream Hs) as [Hnd Hall].
  split; [done|]. rewrite Forall_forall in *. intros t Hin.
  rewrite <- list_lookup_fmap. auto.
Qed.

Lemma reachable_joined_holds_stream_witness :
  is_Some (localStreamRef offered).
Proof.
  apply (reachable_joined_holds_stream
           [(willing, JoinVoice);
            (willing, UsersChanged (Some "A")
                        [mkUser (Some "A") "a"; mkUser (Some "B") "b"])]).
  reflexivity.
Defined.

(** ** The membership effect *)

Lemma membershipEffect_eq h self users s :
  membershipEffect h self users s
  = if joined s then forEach users (λ u, unawaited (offerTo h self u)) s
    else (Ok tt, s).
Proof.
  unfold membershipEffect, bind at 1, gets at 1. by destruct (joined s).
Qed.

Lemma newcomer_Some self s u id :
  newcomer self s u = Some id →
  socketId u = Some id ∧ id ≠ "" ∧ Some id ≠ self ∧ peersRef s !! id = None.
Proof.
  unfold newcomer. destruct (socketId u) as [k|]; [|done]. simpl.
  destruct (String.eqb_spec k ""); simpl; [done|].
  destruct (bool_decide_reflect (Some k = self)); simpl; [done|].
  destruct (bool_decide_reflect (peersRef s !! k = None)); simpl; [|done].
  by intros [= <-].
Qed.

Lemma newcomer_None self s u id :
  newcomer self s u = None → socketId u = Some id →
  id = "" ∨ Some id = self ∨ is_Some (peersRef s !! id).
Proof.
  unfold newcomer. intros H Hid. rewrite Hid in H. simpl in H.
  destruct (String.eqb_spec id ""); simpl in H; [by left|].
  destruct (bool_decide_reflect (Some id = self)); simpl in H; [by right; left|].
  destruct (bool_decide_reflect (peersRef s !! id = None)) as [|Hk];
    simpl in H; [done|].
  right; right. by apply not_eq_None_Some.
Qed.

Lemma offerTo_eq h self u s :
  offerTo h self u s
  = match newcomer self s u with
    | Some id => offerNew h id s
    | None => (Ok tt, s)
    end.
Proof.
  unfold offerTo, newcomer. destruct (socketId u) as [k|]; [|done]. simpl.
  destruct (String.eqb k ""); simpl; [done|].
  destruct (bool_decide (Some k = self)); simpl; [done|].
  unfold bind at 1, gets at 1.
  destruct (peersRef s !! k) eqn:Hk; simpl; try done;
    by case_bool_decide.
Qed.

(** The two ways a newcomer's callback ends. *)
Lemma offerNew_sent h id s offer :
  offer_outcome h s = Some offer →
  offerNew h id s
  = (Ok tt,
     push_emit (VOICE_OFFER offer id)
       (set_pcHeap (alter (set_pc_local offer) (length (pcHeap s)))
          (createPeerConnection h id s).2)).
Proof.
  unfold offer_outcome. intros Hout.
  assert (Hok : is_Some (localStreamRef s) ∨ is_Some (mic h)).
  { destruct (localStreamRef s), (mic h); eauto; done. }
  destruct (createPeerConnection_built h id s Hok) as (Hr & _).
  assert (Hsteps : createOffer_result h (length (pcHeap s)) = Some offer
                   ∧ setLocalDescription_ok h (length (pcHeap s)) = true).
  { destruct (localStreamRef s), (mic h),
      (createOffer_result h (length (pcHeap s))),
      (setLocalDescription_ok h (length (pcHeap s)));
      try done; by injection Hout as ->. }
  destruct Hsteps as [Hco Hld].
  unfold offerNew, try_catch, bind at 1.
  destruct (createPeerConnection h id s) as [[e|x] s1]; simpl in *; [|done].
  injection Hr as ->. unfold createOffer, setLocalDescription. simpl.
  rewrite Hco, Hld. by run_js.
Qed.

Lemma offerNew_failed h id s :
  offer_outcome h s = None →
  ∃ f, offerNew h id s
       = cleanupPeer h id
           (push_log (ConsoleError ("Failed to create offer for " +:+ id))
              (set_pcHeap f (createPeerConnection h id s).2)).
Proof.
  unfold offer_outcome. intros Hout.
  destruct (createPeerConnection_cases h s) as [[Hl Hmic]|Hok].
  - destruct (createPeerConnection_denied h id s Hl Hmic) as (Hr & _).
    unfold offerNew, try_catch, bind at 1.
    destruct (createPeerConnection h id s) as [[e|x] s1]; simpl in *; [done|].
    exists (λ hp, hp). run_js. by destruct s1.
  - destruct (createPeerConnection_built h id s Hok) as (Hr & _).
    unfold offerNew, try_catch, bind at 1.
    destruct (createPeerConnection h id s) as [[e|x] s1]; simpl in *; [|done].
    injection Hr as ->. unfold createOffer, setLocalDescription. simpl.
    destruct (createOffer_result h (length (pcHeap s))) as [offer|]; simpl.
    + destruct (setLocalDescription_ok h (length (pcHeap s))); simpl.
      * by destruct (localStreamRef s), (mic h), Hok as [[? ?]|[? ?]].
      * exists (λ hp, hp). run_js. by destruct s1.
    + exists (λ hp, hp). run_js. by destruct s1.
Qed.

(** What one newcomer's callback leaves behind. *)
Lemma offerNew_frame h id s :
  peersRef s !! id = None →
  let s' := (offerNew h id s).2 in
  (offerNew h id s).1 = Ok tt
  ∧ joined s' = joined s
  ∧ localMuted s' = localMuted s
  ∧ peersRef s'
    = match offer_outcome h s with
      | Some _ => <[id := fresh_entry s]> (peersRef s)
      | None => peersRef s
      end
  ∧ emitted s'
    = emitted s ++ match offer_outcome h s with
                   | Some offer => [VOICE_OFFER offer id]
                   | None => []
                   end
  ∧ (in_sync s → remoteMutedMap s'
                 = match offer_outcome h s with
                   | Some _ => <[id := false]> (remoteMutedMap s)
                   | None => remoteMutedMap s
                   end)
  ∧ (is_Some (localStreamRef s) → is_Some (localStreamRef s')).
Proof.
  intros Hid s'. subst s'.
  destruct (createPeerConnection_allocates h id s)
    as (_ & _ & Hj & Hlm & He).
  destruct (offer_outcome h s) as [offer|] eqn:Hout.
  - rewrite (offerNew_sent h id s offer Hout). simpl.
    assert (Hok : is_Some (localStreamRef s) ∨ is_Some (mic h)).
    { unfold offer_outcome in Hout.
      destruct (localStreamRef s), (mic h); eauto; done. }
    destruct (createPeerConnection_built h id s Hok)
      as (_ & Hp & Hm & Hl & _).
    rewrite Hl. split_and!; try done; try (by rewrite He); eauto.
  - destruct (offerNew_failed h id s Hout) as [f ->].
    set (s2 := push_log _ _).
    destruct (cleanupPeer_frame h id s2)
      as (Hr & Hp & Hm & _ & Hj' & Hlm' & Hl' & _ & He' & _).
    rewrite Hr, Hj', Hlm', Hp, He', Hl', Hm. subst s2. simpl.
    rewrite app_nil_r.
    destruct (createPeerConnection_cases h s) as [[Hl Hmic]|Hok].
    + destruct (createPeerConnection_denied h id s Hl Hmic)
        as (_ & -> & -> & -> & _).
      rewrite Hid, delete_id by done.
      split_and!; try done; rewrite Hl; by intros [? ?].
    + destruct (createPeerConnection_built h id s Hok)
        as (_ & -> & -> & -> & _).
      rewrite lookup_insert_eq, delete_insert_id by done.
      split_and!; try done; eauto.
      intros Hs. apply delete_insert_id.
      apply not_elem_of_dom. rewrite Hs. by apply not_elem_of_dom.
Qed.

Lemma offerTo_step h self u s :
  let s' := (offerTo h self u s).2 in
  (offerTo h self u s).1 = Ok tt
  ∧ joined s' = joined s
  ∧ localMuted s' = localMuted s
  ∧ peersRef s'
    = match newcomer self s u, offer_outcome h s with
      | Some id, Some _ => <[id := fresh_entry s]> (peersRef s)
      | _, _ => peersRef s
      end
  ∧ emitted s'
    = emitted s ++ match newcomer self s u, offer_outcome h s with
                   | Some id, Some offer => [VOICE_OFFER offer id]
                   | _, _ => []
                   end
  ∧ (in_sync s → remoteMutedMap s'
                 = match newcomer self s u, offer_outcome h s with
                   | Some id, Some _ => <[id := false]> (remoteMutedMap s)
                   | _, _ => remoteMutedMap s
                   end)
  ∧ (is_Some (localStreamRef s) → is_Some (localStreamRef s')).
Proof.
  rewrite offerTo_eq.
  destruct (newcomer self s u) as [id|] eqn:Hn; simpl.
  - apply newcomer_Some in Hn as (_ & _ & _ & Hid).
    destruct (offerNew_frame h id s Hid) as (H1 & H2 & H3 & H4 & H5 & H6 & H7).
    split_and!; try done; by destruct (offer_outcome h s).
  - rewrite app_nil_r. by split_and!.
Qed.

Lemma unawaited_ok (m : M unit) s : (m s).1 = Ok tt → unawaited m s = m s.
Proof. unfold unawaited, try_catch. by destruct (m s) as [[[]|x] s1]. Qed.

(** The loop of the effect over the users. *)
Lemma offer_loop_spec h self users s :
  let s' := (forEach users (λ u, unawaited (offerTo h self u)) s).2 in
  (forEach users (λ u, unawaited (offerTo h self u)) s).1 = Ok tt
  ∧ joined s' = joined s
  ∧ localMuted s' = localMuted s
  ∧ (∀ k e, peersRef s !! k = Some e → peersRef s' !! k = Some e)
  ∧ (∃ more, emitted s' = emitted s ++ more
       ∧ Forall (λ m, ∃ offer k, m = VOICE_OFFER offer k
                                 ∧ peersRef s !! k = None
                                 ∧ is_Some (peersRef s' !! k)) more)
  ∧ (∀ k, peersRef s !! k = None → is_Some (peersRef s' !! k) →
       k ≠ "" ∧ Some k ≠ self
       ∧ (∃ u, u ∈ users ∧ socketId u = Some k)
       ∧ ∃ offer, VOICE_OFFER offer k ∈ emitted s')
  ∧ (is_Some (localStreamRef s) → is_Some (localStreamRef s')).
Proof.
  revert s. induction users as [|u users IH]; intros s; simpl.
  - split_and!; try done.
    + exists []. by rewrite app_nil_r.
    + intros k -> [? ?]. done.
  - unfold bind.
    destruct (offerTo_step h self u s) as (Hr & Hj & Hlm & Hp & He & _ & Hl).
    rewrite (unawaited_ok _ s Hr).
    destruct (offerTo h self u s) as [[[]|x] s1]; simpl in *; [|done].
    destruct (IH s1) as (Hr' & Hj' & Hlm' & Hkeep & (more & He' & Hmore)
                         & Hnew & Hl').
    assert (Hkeep1 : ∀ k e, peersRef s !! k = Some e →
                            peersRef s1 !! k = Some e).
    { intros k e Hk. rewrite Hp.
      destruct (newcomer self s u) as [id|] eqn:Hn; [|done].
      destruct (offer_outcome h s); [|done].
      apply newcomer_Some in Hn as (_ & _ & _ & Hid).
      rewrite lookup_insert_ne; [done|]. intros ->. congruence. }
    split_and!; try congruence; eauto.
    + eexists. split; [by rewrite He', He, <- app_assoc|].
      apply Forall_app. split.
      * destruct (newcomer self s u) as [id|] eqn:Hn; [|done].
        destruct (offer_outcome h s) as [offer|]; [|done].
        apply newcomer_Some in Hn as (_ & _ & _ & Hid).
        apply Forall_singleton. exists offer, id. split_and!; [done..|].
        exists (fresh_entry s). apply Hkeep. rewrite Hp.
        apply lookup_insert_eq.
      * eapply Forall_impl; [exact Hmore|]. simpl.
        intros m (offer & k & -> & Hk & Hk'). exists offer, k.
        split_and!; [done| |done].
        destruct (peersRef s !! k) eqn:E; [|done].
        apply Hkeep1 in E. congruence.
    + intros k Hk Hk'. destruct (peersRef s1 !! k) as [e1|] eqn:Hk1.
      * rewrite Hp in Hk1.
        destruct (newcomer self s u) as [id|] eqn:Hn; [|congruence].
        destruct (offer_outcome h s) as [offer|]; [|congruence].
        apply newcomer_Some in Hn as (Hu & Hne & Hself & Hid).
        destruct (decide (id = k)) as [->|Hdiff];
          [|rewrite lookup_insert_ne in Hk1 by done; congruence].
        split_and!; [done|done| |].
        -- exists u. split; [by left|done].
        -- exists offer. rewrite He', He.
           apply elem_of_app. left. apply elem_of_app. right. by left.
      * destruct (Hnew k Hk1 Hk') as (Hne & Hself & (u' & Hin & Hu') & Hoff).
        split_and!; [done|done| |done].
        exists u'. split; [by right|done].
Qed.

(** X16.  The membership effect never raises and no callback of its loop
    ends in a rejection: every failure is caught inside the callback.  It
    changes nothing when [joined] is false; it never changes [joined] or
    [localMuted]; and an entry that is in the table before it runs is
    still there, unchanged, when it has run. *)
Theorem membershipEffect_keeps_held_sessions h self users s :
  let s' := (membershipEffect h self users s).2 in
  (membershipEffect h self users s).1 = Ok tt
  ∧ (∀ u s0, (offerTo h self u s0).1 = Ok tt)
  ∧ (joined s = false → s' = s)
  ∧ joined s' = joined s
  ∧ localMuted s' = localMuted s
  ∧ (∀ k e, peersRef s !! k = Some e → peersRef s' !! k = Some e).
Proof.
  intros s'. subst s'. rewrite membershipEffect_eq.
  destruct (offer_loop_spec h self users s) as (Hr & Hj & Hlm & Hkeep & _).
  split_and!.
  - by destruct (joined s).
  - intros u s0. apply offerTo_step.
  - by intros ->.
  - by destruct (joined s) eqn:E.
  - by destruct (joined s).
  - destruct (joined s); [done|]. by intros k e.
Qed.

Lemma membershipEffect_keeps_held_sessions_witness :
  (membershipEffect willing (Some "A") [mkUser (Some "B") "b"] mounted).2
  = mounted
  ∧ peersRef
      (membershipEffect rejecting (Some "A") [mkUser (Some "C") "c"]
         offered).2 !! "B"
    = Some (mkEntry 0 0 false).
Proof.
  split.
  - apply (membershipEffect_keeps_held_sessions willing (Some "A")
             [mkUser (Some "B") "b"] mounted).
    reflexivity.
  - apply (membershipEffect_keeps_held_sessions rejecting (Some "A")
             [mkUser (Some "C") "c"] offered).
    reflexivity.
Defined.

(** X17.  A session the membership effect adds is for a user of the list
    with a non-empty socket id other than [socket.id], is added only while
    [joined] is true, and has had its offer emitted.  What the effect emits
    are offers only, each addressed to a peer that had no session before
    and has one after. *)
Theorem membershipEffect_new_sessions_offered h self users s :
  let s' := (membershipEffect h self users s).2 in
  (∀ k, peersRef s !! k = None → is_Some (peersRef s' !! k) →
     joined s = true
     ∧ k ≠ "" ∧ Some k ≠ self
     ∧ (∃ u, u ∈ users ∧ socketId u = Some k)
     ∧ ∃ offer, VOICE_OFFER offer k ∈ emitted s')
  ∧ ∃ more, emitted s' = emitted s ++ more
            ∧ Forall (λ m, ∃ offer k, m = VOICE_OFFER offer k
                                      ∧ peersRef s !! k = None
                                      ∧ is_Some (peersRef s' !! k)) more.
Proof.
  intros s'. subst s'. rewrite membershipEffect_eq.
  destruct (offer_loop_spec h self users s)
    as (_ & _ & _ & _ & Hmore & Hnew & _).
  destruct (joined s); simpl.
  - split; [|done]. intros k Hk Hk'. split; [done|]. by apply Hnew.
  - split.
    + intros k -> [? ?]. done.
    + exists []. by rewrite app_nil_r.
Qed.

Lemma membershipEffect_new_sessions_offered_witness :
  ∃ offer, VOICE_OFFER offer "B" ∈ emitted offered.
Proof.
  apply (membershipEffect_new_sessions_offered willing (Some "A")
           [mkUser (Some "A") "a"; mkUser (Some "B") "b"]
           (joinVoice willing mounted).2 : (∀ k, _ → _ → _) ∧ _);
    [reflexivity|by eexists].
Defined.

Lemma offer_loop_reaches h self users s :
  is_Some (localStreamRef s) ∨ is_Some (mic h) →
  (∀ r, is_Some (createOffer_result h r)) →
  (∀ r, setLocalDescription_ok h r = true) →
  ∀ u id, u ∈ users → socketId u = Some id → id ≠ "" → Some id ≠ self →
    is_Some (peersRef
               (forEach users (λ u, unawaited (offerTo h self u)) s).2 !! id).
Proof.
  intros Hok Hco Hld. revert s Hok.
  induction users as [|u0 users IH]; intros s Hok u id Hin Hu Hne Hself.
  - by apply elem_of_nil in Hin.
  - simpl. unfold bind.
    destruct (offerTo_step h self u0 s) as (Hr & _ & _ & Hp & _ & _ & Hl).
    rewrite (unawaited_ok _ s Hr).
    destruct (offerTo h self u0 s) as [[[]|x] s1] eqn:Hstep;
      simpl in *; [|done].
    assert (Hout : is_Some (offer_outcome h s)).
    { unfold offer_outcome. destruct (Hco (length (pcHeap s))) as [o ->].
      rewrite Hld. destruct Hok as [[? ->]|[? ->]]; [eauto|].
      destruct (localStreamRef s); eauto. }
    assert (Hok1 : is_Some (localStreamRef s1) ∨ is_Some (mic h)).
    { destruct Hok as [Hs|Hm]; [left; by apply Hl|by right]. }
    apply elem_of_cons in Hin as [->|Hin]; [|by eapply IH].
    destruct (offer_loop_spec h self users s1) as (_ & _ & _ & Hkeep & _).
    assert (Hhere : is_Some (peersRef s1 !! id)).
    { rewrite Hp. destruct (newcomer self s u0) as [k|] eqn:Hn.
      - destruct Hout as [o ->].
        apply newcomer_Some in Hn as (Hk & _). rewrite Hu in Hk.
        injection Hk as <-. rewrite lookup_insert_eq. eauto.
      - by destruct (newcomer_None self s u0 id Hn Hu) as [?|[?|?]]. }
    destruct Hhere as [e He]. exists e. by apply Hkeep.
Qed.

(** X18.  When [joined] is true, a stream is held or granted and the host
    creates and accepts every offer, then after the membership effect
    every user of the list with a non-empty socket id other than
    [socket.id] has a session in the table. *)
Theorem membershipEffect_reaches_everyone h self users s :
  joined s = true →
  is_Some (localStreamRef s) ∨ is_Some (mic h) →
  (∀ r, is_Some (createOffer_result h r)) →
  (∀ r, setLocalDescription_ok h r = true) →
  ∀ u id, u ∈ users → socketId u = Some id → id ≠ "" → Some id ≠ self →
    is_Some (peersRef (membershipEffect h self users s).2 !! id).
Proof.
  intros Hj Hok Hco Hld u id Hin Hu Hne Hself.
  rewrite membershipEffect_eq, Hj. by eapply offer_loop_reaches.
Qed.

Lemma membershipEffect_reaches_everyone_witness :
  is_Some (peersRef offered !! "B").
Proof.
  apply (membershipEffect_reaches_everyone willing (Some "A")
           [mkUser (Some "A") "a"; mkUser (Some "B") "b"]
           (joinVoice willing mounted).2 eq_refl
           (or_intror (mk_is_Some _ _ eq_refl))
           (λ _, mk_is_Some _ _ eq_refl) (λ _, eq_refl)
           (mkUser (Some "B") "b") "B").
  - apply list_elem_of_In. right. by left.
  - reflexivity.
  - discriminate.
  - discriminate.
Defined.

Lemma offer_loop_fails h self users s :
  (∀ s0, offer_outcome h s0 = None) → in_sync s →
  let s' := (forEach users (λ u, unawaited (offerTo h self u)) s).2 in
  peersRef s' = peersRef s
  ∧ remoteMutedMap s' = remoteMutedMap s
  ∧ emitted s' = emitted s.
Proof.
  intros Hout. revert s. induction users as [|u users IH]; intros s Hs; simpl.
  - done.
  - unfold bind.
    destruct (offerTo_step h self u s) as (Hr & _ & _ & Hp & He & Hm & _).
    rewrite (unawaited_ok _ s Hr).
    destruct (offerTo h self u s) as [[[]|x] s1]; simpl in *; [|done].
    specialize (Hm Hs). rewrite Hout in Hp, He, Hm.
    assert (Hp1 : peersRef s1 = peersRef s)
      by (by destruct (newcomer self s u)).
    assert (Hm1 : remoteMutedMap s1 = remoteMutedMap s)
      by (by destruct (newcomer self s u)).
    assert (He1 : emitted s1 = emitted s).
    { rewrite He. destruct (newcomer self s u); by rewrite app_nil_r. }
    destruct (IH s1) as (-> & -> & ->); [|done].
    unfold in_sync. by rewrite Hp1, Hm1.
Qed.

(** X19.  When the host fails every offer (it creates none, or accepts
    none as a local description), the membership effect registers nobody:
    each session it builds is torn down again, so the table and the mute
    map are as before and nothing is emitted. *)
Theorem membershipEffect_unregisters_failed_offers h self users s :
  (∀ r, createOffer_result h r = None)
  ∨ (∀ r, setLocalDescription_ok h r = false) →
  in_sync s →
  let s' := (membershipEffect h self users s).2 in
  peersRef s' = peersRef s
  ∧ remoteMutedMap s' = remoteMutedMap s
  ∧ emitted s' = emitted s.
Proof.
  intros Hfail Hs s'. subst s'. rewrite membershipEffect_eq.
  destruct (joined s); [|done].
  apply offer_loop_fails; [|done].
  intros s0. unfold offer_outcome.
  destruct Hfail as [Hco|Hld]; rewrite ?Hco, ?Hld;
    destruct (localStreamRef s0), (mic h),
      (createOffer_result h (length (pcHeap s0))); done.
Qed.

Lemma membershipEffect_unregisters_failed_offers_witness :
  peersRef
    (membershipEffect rejecting (Some "A") [mkUser (Some "C") "c"] offered).2
  = peersRef offered.
Proof.
  apply (membershipEffect_unregisters_failed_offers rejecting (Some "A")
           [mkUser (Some "C") "c"] offered (or_intror (λ _, eq_refl))).
  by vm_compute.
Defined.

(** ** Building, then tearing down *)

(** X20.  A session built for a peer that had none and torn down again
    leaves the table and the mute map as they were before the build, and
    its connection closed; the stream acquired or reused for the build
    stays held: teardown does not release the microphone. *)
Theorem build_then_teardown h h' id s :
  peersRef s !! id = None → in_sync s →
  is_Some (localStreamRef s) ∨ is_Some (mic h) →
  close_throws h' (length (pcHeap s)) = false →
  let s1 := (createPeerConnection h id s).2 in
  let s2 := (cleanupPeer h' id s1).2 in
  peersRef s2 = peersRef s
  ∧ remoteMutedMap s2 = remoteMutedMap s
  ∧ pc_closed <$> pcHeap s2 !! length (pcHeap s) = Some true
  ∧ localStreamRef s2 = Some (stream_after h s).
Proof.
  intros Hid Hs Hok Hclose s1 s2.
  destruct (createPeerConnection_built h id s Hok)
    as (_ & Hp & Hm & Hl & _).
  pose proof (createPeerConnection_wiring h id s) as Hw.
  fold s1 in Hp, Hm, Hl, Hw.
  assert (He : peersRef s1 !! id = Some (fresh_entry s))
    by (rewrite Hp; apply lookup_insert_eq).
  destruct (cleanupPeer_present h' id s1 _ He) as [children Heq].
  subst s2. rewrite Heq. simpl. rewrite Hclose, Hp, Hm.
  split_and!; [| | |done].
  - by apply delete_insert_id.
  - apply delete_insert_id. apply not_elem_of_dom. rewrite Hs.
    by apply not_elem_of_dom.
  - rewrite list_lookup_alter_eq.
    assert (Hat : (wiring <$> pcHeap s1) !! length (pcHeap s)
                  = Some (false, id, Some (length (audioHeap s)))).
    { rewrite Hw, lookup_app_r; rewrite length_fmap; [|lia].
      by rewrite Nat.sub_diag. }
    rewrite list_lookup_fmap in Hat.
    by destruct (pcHeap s1 !! length (pcHeap s)).
Qed.

Lemma build_then_teardown_witness :
  peersRef (cleanupPeer willing "C"
              (createPeerConnection willing "C" offered).2).2
  = peersRef offered
  ∧ localStreamRef (cleanupPeer willing "C"
                      (createPeerConnection willing "C" offered).2).2
    = Some [0].
Proof.
  pose proof (build_then_teardown willing willing "C" offered eq_refl) as H.
  assert (Hs : in_sync offered) by (by vm_compute).
  specialize (H Hs (or_introl (mk_is_Some _ _ eq_refl)) eq_refl).
  split; apply H.
Defined.
